(** * PII detector and redactor: a shallow embedding of
      [detector_Rakshit_saxena.py] and the properties of [detect_pii].

    A Python [str] is modelled as a [string] whose characters are the code
    points below 256; a record (a [dict]) is an association list in insertion
    order; the two dictionaries of [detect_pii] ([data] and its copy
    [redacted_data]) live in a store of dictionary objects addressed by
    references, and the exceptions a Python expression can raise are results
    of an error type. *)

From stdpp Require Import base list strings.
From Stdlib Require Import Ascii String NArith Permutation Lia.

Local Open Scope string_scope.
Local Open Scope list_scope.

(** ** Characters and strings *)

Module Str.

Definition code (c : ascii) : N := N_of_ascii c.

Definition in_range (lo hi : N) (c : ascii) : bool :=
  (lo <=? code c)%N && (code c <=? hi)%N.

(** [\d] of [re] on a [str] pattern: the decimal digits. Below 256 these
    are the ten ASCII digits. *)
Definition is_digit (c : ascii) : bool := in_range 48 57 c.

(** [[A-Z]]. *)
Definition is_upper_az (c : ascii) : bool := in_range 65 90 c.

(** [\w] of [re] on a [str] pattern: alphanumeric code points and the
    underscore. The table lists the code points below 256 for which
    [str.isalnum] holds. *)
Definition is_word (c : ascii) : bool :=
  in_range 48 57 c || in_range 65 90 c || in_range 95 95 c
  || in_range 97 122 c || in_range 170 170 c || in_range 178 179 c
  || in_range 181 181 c || in_range 185 186 c || in_range 188 190 c
  || in_range 192 214 c || in_range 216 246 c || in_range 248 255 c.

(** [str.isspace], the separators of [str.split()] without argument. *)
Definition is_space (c : ascii) : bool :=
  in_range 9 13 c || in_range 28 32 c || in_range 133 133 c
  || in_range 160 160 c.

(** [c in s] for a one-character [c]. *)
Fixpoint contains (c : ascii) (s : string) : bool :=
  match s with
  | EmptyString => false
  | String x s' => Ascii.eqb x c || contains c s'
  end.

(** Every character of [s] satisfies [p]. *)
Fixpoint all (p : ascii -> bool) (s : string) : bool :=
  match s with
  | EmptyString => true
  | String x s' => p x && all p s'
  end.

(** [s[:n]]: the slice clamps to the length of [s]. *)
Fixpoint take (n : nat) (s : string) : string :=
  match n, s with
  | S n', String c s' => String c (take n' s')
  | _, _ => EmptyString
  end.

Fixpoint drop (n : nat) (s : string) : string :=
  match n, s with
  | S n', String _ s' => drop n' s'
  | _, _ => s
  end.

(** [s[-n:]] for [n > 0]: the last [n] characters, the whole of [s] when
    it is shorter. *)
Definition last_n (n : nat) (s : string) : string :=
  drop (String.length s - n) s.

(** [s.split(sep)] for a one-character separator: never an empty list. *)
Fixpoint split_on (sep : ascii) (s : string) : list string :=
  match s with
  | EmptyString => [EmptyString]
  | String c s' =>
      if Ascii.eqb c sep then EmptyString :: split_on sep s'
      else match split_on sep s' with
           | p :: ps => String c p :: ps
           | [] => [String c EmptyString]
           end
  end.

(** [s.split()]: the maximal runs of characters that are not whitespace.
    [cur] is the run being read, [None] between two runs. *)
Fixpoint split_ws_from (cur : option string) (s : string) : list string :=
  match s with
  | EmptyString =>
      match cur with Some w => [w] | None => [] end
  | String c s' =>
      if is_space c then
        match cur with
        | Some w => w :: split_ws_from None s'
        | None => split_ws_from None s'
        end
      else
        match cur with
        | Some w => split_ws_from (Some (w +:+ String c EmptyString)) s'
        | None => split_ws_from (Some (String c EmptyString)) s'
        end
  end.

Definition split_ws (s : string) : list string := split_ws_from None s.

(** The part of [s] before its first [sep] (all of [s] when there is
    none), and the part after it. *)
Fixpoint before (sep : ascii) (s : string) : string :=
  match s with
  | EmptyString => EmptyString
  | String c s' => if Ascii.eqb c sep then EmptyString
                   else String c (before sep s')
  end.

Fixpoint after (sep : ascii) (s : string) : string :=
  match s with
  | EmptyString => EmptyString
  | String c s' => if Ascii.eqb c sep then s' else after sep s'
  end.

End Str.

(** ** The fragment of [re] the four patterns are written in *)

Module Re.

Inductive charset : Type :=
| Digit                          (* \d *)
| Word                           (* \w *)
| UpperAZ                        (* A-Z *)
| Lit (c : ascii)                (* a literal or escaped character *)
| Union (a b : charset).         (* members of one [...] *)

Fixpoint mem (cs : charset) (c : ascii) : bool :=
  match cs with
  | Digit => Str.is_digit c
  | Word => Str.is_word c
  | UpperAZ => Str.is_upper_az c
  | Lit x => Ascii.eqb c x
  | Union a b => mem a c || mem b c
  end.

Inductive regex : Type :=
| Boundary                       (* \b *)
| One (cs : charset)             (* one character of the set *)
| Plus (cs : charset)            (* cs+ *)
| Repeat (n : nat) (cs : charset)(* cs{n} *)
| Cat (r1 r2 : regex)            (* r1 r2 *)
| Alt (r1 r2 : regex).           (* r1|r2 *)

(** A continuation receives the character before the current position
    (none at the start of the string) and the text still to read. *)
Definition cont : Type := option ascii -> string -> bool.

Definition word_before (prev : option ascii) : bool :=
  match prev with Some c => Str.is_word c | None => false end.

Definition word_here (s : string) : bool :=
  match s with String c _ => Str.is_word c | EmptyString => false end.

(** [\b]: exactly one of the two neighbours is a word character; the ends
    of the string count as non-word. *)
Definition at_boundary (prev : option ascii) (s : string) : bool :=
  xorb (word_before prev) (word_here s).

Fixpoint match_plus (cs : charset) (k : cont) (prev : option ascii)
    (s : string) : bool :=
  match s with
  | EmptyString => false
  | String c s' =>
      mem cs c && (k (Some c) s' || match_plus cs k (Some c) s')
  end.

Fixpoint match_repeat (n : nat) (cs : charset) (k : cont)
    (prev : option ascii) (s : string) : bool :=
  match n with
  | O => k prev s
  | S n' =>
      match s with
      | EmptyString => false
      | String c s' => mem cs c && match_repeat n' cs k (Some c) s'
      end
  end.

(** [rmatch r prev s k]: some match of [r] at the start of [s] leaves a
    rest that [k] accepts. *)
Fixpoint rmatch (r : regex) (prev : option ascii) (s : string) (k : cont)
    : bool :=
  match r with
  | Boundary => at_boundary prev s && k prev s
  | One cs =>
      match s with
      | EmptyString => false
      | String c s' => mem cs c && k (Some c) s'
      end
  | Plus cs => match_plus cs k prev s
  | Repeat n cs => match_repeat n cs k prev s
  | Cat r1 r2 => rmatch r1 prev s (fun p t => rmatch r2 p t k)
  | Alt r1 r2 => rmatch r1 prev s k || rmatch r2 prev s k
  end.

Definition accept : cont := fun _ _ => true.

Fixpoint search_from (r : regex) (prev : option ascii) (s : string)
    : bool :=
  rmatch r prev s accept
  || match s with
     | EmptyString => false
     | String c s' => search_from r (Some c) s'
     end.

(** [bool(pattern.search(s))]: the pattern matches at some position. *)
Definition search (r : regex) (s : string) : bool := search_from r None s.

Fixpoint cat (rs : list regex) (last : regex) : regex :=
  match rs with
  | [] => last
  | r :: rs' => Cat r (cat rs' last)
  end.

End Re.

(** ** Values, records, exceptions *)

(** A field value: a string, a number or null. The code never looks inside
    a number, so an integer stands for every numeric value. *)
Inductive value : Type :=
| VStr (s : string)
| VNum (n : Z)
| VNull.

(** [isinstance(value, str)] *)
Definition is_str (v : value) : bool :=
  match v with VStr _ => true | _ => false end.

(** A [dict] with string keys, in insertion order. A dict holds a key at
    most once: [wf_record]. *)
Definition dict : Type := list (string * value).

Definition keys (d : dict) : list string := map fst d.

Definition wf_record (d : dict) : Prop := NoDup (keys d).

#[global] Instance wf_record_dec (d : dict) : Decision (wf_record d) :=
  NoDup_dec (keys d).

Inductive exn : Type :=
| IndexError        (* an index outside a string or a list *)
| KeyError          (* d[k] for a key that d lacks *)
| AttributeError    (* a str method called on a number or on None *)
| BadRef.           (* a reference to no object of the store *)

Inductive result (A : Type) : Type :=
| Ok (a : A)
| Raise (e : exn).
Arguments Ok {A} a.
Arguments Raise {A} e.

Definition rbind {A B : Type} (m : result A) (k : A -> result B) : result B :=
  match m with
  | Ok a => k a
  | Raise e => Raise e
  end.

Notation "'let?' x ':=' m 'in' k" := (rbind m (fun x => k))
  (at level 10, x name, m at level 200, k at level 200, only parsing).

(** [l[i]] on a list and [s[i]] on a string, for [i >= 0]. *)
Definition item {A : Type} (l : list A) (i : nat) : result A :=
  match l !! i with
  | Some a => Ok a
  | None => Raise IndexError
  end.

Definition char_at (s : string) (i : nat) : result string :=
  match String.get i s with
  | Some c => Ok (String c EmptyString)
  | None => Raise IndexError
  end.

(** [l[-1]] *)
Definition last_item {A : Type} (l : list A) : result A :=
  match List.last (map Some l) None with
  | Some a => Ok a
  | None => Raise IndexError
  end.

(** The methods [split] exist on strings only. *)
Definition as_str (v : value) : result string :=
  match v with
  | VStr s => Ok s
  | _ => Raise AttributeError
  end.

(** ** Dictionaries *)

Module Dict.

(** [d.get(k)], [None] for a missing key. *)
Fixpoint get (k : string) (d : dict) : option value :=
  match d with
  | [] => None
  | (k', v) :: d' => if String.eqb k k' then Some v else get k d'
  end.

(** [k in d] *)
Definition has (k : string) (d : dict) : bool :=
  match get k d with Some _ => true | None => false end.

(** [d[k] = v]: the value of an existing key is replaced where it stands,
    a new key goes to the end. *)
Fixpoint set (k : string) (v : value) (d : dict) : dict :=
  match d with
  | [] => [(k, v)]
  | (k', v') :: d' =>
      if String.eqb k k' then (k', v) :: d' else (k', v') :: set k v d'
  end.

End Dict.

(** ** The store of dictionary objects *)

Abbreviation ref := nat (only parsing).
Abbreviation store := (list dict) (only parsing).

(** A computation reads and writes the store and returns or raises. *)
Definition M (A : Type) : Type := store -> result A * store.

Definition ret {A : Type} (a : A) : M A := fun h => (Ok a, h).

Definition bind {A B : Type} (m : M A) (k : A -> M B) : M B :=
  fun h =>
    match m h with
    | (Ok a, h') => k a h'
    | (Raise e, h') => (Raise e, h')
    end.

Definition lift {A : Type} (r : result A) : M A := fun h => (r, h).

Notation "'let!' x ':=' m 'in' k" := (bind m (fun x => k))
  (at level 10, x name, m at level 200, k at level 200, only parsing).

(** [d.copy()]: a new object with the entries of [d]; the values are
    immutable, so are shared without harm. *)
Definition dict_copy (d : ref) : M ref :=
  fun h =>
    match h !! d with
    | Some o => (Ok (List.length h), h ++ [o])
    | None => (Raise BadRef, h)
    end.

(** [d.items()], read when the loop starts. *)
Definition dict_items (d : ref) : M (list (string * value)) :=
  fun h =>
    match h !! d with
    | Some o => (Ok o, h)
    | None => (Raise BadRef, h)
    end.

(** [k in d] *)
Definition dict_has (d : ref) (k : string) : M bool :=
  fun h =>
    match h !! d with
    | Some o => (Ok (Dict.has k o), h)
    | None => (Raise BadRef, h)
    end.

(** [d[k]] *)
Definition dict_getitem (d : ref) (k : string) : M value :=
  fun h =>
    match h !! d with
    | Some o =>
        match Dict.get k o with
        | Some v => (Ok v, h)
        | None => (Raise KeyError, h)
        end
    | None => (Raise BadRef, h)
    end.

(** [d[k] = v] *)
Definition dict_setitem (d : ref) (k : string) (v : value) : M unit :=
  fun h =>
    match h !! d with
    | Some o => (Ok tt, <[d := Dict.set k v o]> h)
    | None => (Raise BadRef, h)
    end.

(** ** [PIIDetectorRedactor] *)

Import Re.

(** [\b\d{10}\b] *)
Definition phone_pattern : regex :=
  cat [Boundary; Repeat 10 Digit] Boundary.

(** [\b\d{12}\b] *)
Definition aadhar_pattern : regex :=
  cat [Boundary; Repeat 12 Digit] Boundary.

(** [\b[A-Z]{1}\d{7}\b] *)
Definition passport_pattern : regex :=
  cat [Boundary; Repeat 1 UpperAZ; Repeat 7 Digit] Boundary.

(** [[\w\.-]] *)
Definition handle_chars : charset := Union Word (Union (Lit ".") (Lit "-")).

(** [\b[\w\.-]+@[\w\.-]+\.\w+\b|\b\d{10}@\w+\b] *)
Definition upi_pattern : regex :=
  Alt (cat [Boundary; Plus handle_chars; One (Lit "@"); Plus handle_chars;
            One (Lit "."); Plus Word] Boundary)
      (cat [Boundary; Repeat 10 Digit; One (Lit "@"); Plus Word] Boundary).

Definition combinatorial_pii_fields : list string :=
  ["name"; "email"; "address"; "device_id"; "ip_address"].

(** [key in self.combinatorial_pii_fields] *)
Definition in_fields (key : string) (fields : list string) : bool :=
  existsb (String.eqb key) fields.
Arguments in_fields : simpl never.

Definition redact_phone (phone : string) : string :=
  Str.take 2 phone +:+ "XXXXXX" +:+ Str.last_n 2 phone.

Definition redact_aadhar (aadhar : string) : string :=
  Str.take 4 aadhar +:+ "XXXX" +:+ Str.last_n 4 aadhar.

Definition redact_passport (passport : string) : result string :=
  let? first := char_at passport 0 in
  Ok (first +:+ "XXXXXXX").

Definition redact_upi (upi : string) : result string :=
  if Str.contains "@" upi then
    let parts := Str.split_on "@" upi in
    let? local := item parts 0 in
    let? domain := item parts 1 in
    Ok (Str.take 2 local +:+ "XXX@" +:+ domain)
  else Ok "XXX@XXX".

Definition redact_name (name : string) : result string :=
  let parts := Str.split_ws name in
  if (2 <=? List.length parts)%nat then
    let? first := item parts 0 in
    let? a := char_at first 0 in
    let? last := last_item parts in
    let? b := char_at last 0 in
    Ok (a +:+ "XXX " +:+ b +:+ "XXX")
  else
    let? a := char_at name 0 in
    Ok (a +:+ "XXX").

Definition redact_email (email : string) : result string :=
  let parts := Str.split_on "@" email in
  let? local := item parts 0 in
  let? domain := item parts 1 in
  Ok (Str.take 2 local +:+ "XXX@" +:+ domain).

(** The redactor the [if]/[elif] chain of the first loop calls on a string
    value, if any: the branch taken is the first whose key and pattern both
    agree. *)
Inductive redactor : Type :=
| RedactPhone | RedactAadhar | RedactPassport | RedactUpi.

Definition standalone_rule (key value : string) : option redactor :=
  if String.eqb key "phone" && search phone_pattern value
  then Some RedactPhone
  else if String.eqb key "aadhar" && search aadhar_pattern value
  then Some RedactAadhar
  else if String.eqb key "passport" && search passport_pattern value
  then Some RedactPassport
  else if String.eqb key "upi_id" && search upi_pattern value
  then Some RedactUpi
  else None.

Definition call_redactor (f : redactor) (value : string) : result string :=
  match f with
  | RedactPhone => Ok (redact_phone value)
  | RedactAadhar => Ok (redact_aadhar value)
  | RedactPassport => redact_passport value
  | RedactUpi => redact_upi value
  end.

(** The three local variables the first loop updates. *)
Record locals : Type := Locals {
  standalone_pii_found : bool;
  combinatorial_pii_count : nat;
  combinatorial_fields_found : list string
}.

Definition init_locals : locals := Locals false 0 [].

(** The body of [for key, value in data.items()]. *)
Definition scan_item (redacted_data : ref) (key : string) (value : value)
    (st : locals) : M locals :=
  match value with
  | VStr s =>
      let! found :=
        match standalone_rule key s with
        | Some f =>
            let! masked := lift (call_redactor f s) in
            let! _ := dict_setitem redacted_data key (VStr masked) in
            ret true
        | None => ret (standalone_pii_found st)
        end in
      if in_fields key combinatorial_pii_fields then
        ret (Locals found (S (combinatorial_pii_count st))
                    (combinatorial_fields_found st ++ [key]))
      else
        ret (Locals found (combinatorial_pii_count st)
                    (combinatorial_fields_found st))
  | _ => ret st
  end.

Fixpoint scan_items (redacted_data : ref) (items : list (string * value))
    (st : locals) : M locals :=
  match items with
  | [] => ret st
  | (key, value) :: rest =>
      let! st' := scan_item redacted_data key value st in
      scan_items redacted_data rest st'
  end.

(** [field == k and k in redacted_data] *)
Definition is_field (redacted_data : ref) (field k : string) : M bool :=
  if String.eqb field k then dict_has redacted_data k else ret false.

(** The body of [for field in combinatorial_fields_found]. *)
Definition mask_field (redacted_data : ref) (field : string) : M unit :=
  let! b := is_field redacted_data field "name" in
  if b then
    let! v := dict_getitem redacted_data "name" in
    let! masked := lift (let? s := as_str v in redact_name s) in
    dict_setitem redacted_data "name" (VStr masked)
  else
  let! b := is_field redacted_data field "email" in
  if b then
    let! v := dict_getitem redacted_data "email" in
    let! masked := lift (let? s := as_str v in redact_email s) in
    dict_setitem redacted_data "email" (VStr masked)
  else
  let! b := is_field redacted_data field "address" in
  if b then dict_setitem redacted_data "address" (VStr "[REDACTED_ADDRESS]")
  else
  let! b := is_field redacted_data field "device_id" in
  if b then
    dict_setitem redacted_data "device_id" (VStr "[REDACTED_DEVICE_ID]")
  else
  let! b := is_field redacted_data field "ip_address" in
  if b then dict_setitem redacted_data "ip_address" (VStr "[REDACTED_IP]")
  else ret tt.

Fixpoint mask_fields (redacted_data : ref) (fields : list string) : M unit :=
  match fields with
  | [] => ret tt
  | field :: rest =>
      let! _ := mask_field redacted_data field in
      mask_fields redacted_data rest
  end.

Definition detect_pii (data : ref) : M (bool * ref) :=
  let! redacted_data := dict_copy data in
  let! items := dict_items data in
  let! st := scan_items redacted_data items init_locals in
  let combinatorial_pii_found := (2 <=? combinatorial_pii_count st)%nat in
  let! _ := if combinatorial_pii_found
            then mask_fields redacted_data (combinatorial_fields_found st)
            else ret tt in
  let is_pii := standalone_pii_found st || combinatorial_pii_found in
  ret (is_pii, redacted_data).

(** What the caller holds after a call: the flag and the contents of the
    dictionary the returned reference points to, or the exception. *)
Definition returned (out : result (bool * ref) * store)
    : result (bool * dict) :=
  match out with
  | (Ok (is_pii, r), h) =>
      match h !! r with
      | Some redacted => Ok (is_pii, redacted)
      | None => Raise BadRef
      end
  | (Raise e, _) => Raise e
  end.

(** [detect_pii] called on a record that is the only object of the store. *)
Definition run_detect_pii (record : dict) : result (bool * dict) :=
  returned (detect_pii 0 [record]).

(** Two outcomes agree: the same exception, or the same flag and the same
    mapping from keys to values. *)
Definition same_result (a b : result (bool * dict)) : Prop :=
  match a, b with
  | Ok (f1, r1), Ok (f2, r2) =>
      f1 = f2 /\ forall k, Dict.get k r1 = Dict.get k r2
  | Raise e1, Raise e2 => e1 = e2
  | _, _ => False
  end.

(** ** What the two loops compute, entry by entry *)

(** A standalone rule fires on the entry: its value is a string and one
    branch of the first loop's chain is taken. *)
Definition fires (key : string) (v : value) : bool :=
  match v with
  | VStr s =>
      match standalone_rule key s with Some _ => true | None => false end
  | _ => false
  end.

(** The entry is counted by the first loop as a combinatorial field: the
    test stands inside [if isinstance(value, str)]. *)
Definition counts (key : string) (v : value) : bool :=
  is_str v && in_fields key combinatorial_pii_fields.

(** The value the first loop leaves under [key]. *)
Definition standalone_masked (key : string) (v : value) : value :=
  match v with
  | VStr s =>
      match standalone_rule key s with
      | Some f =>
          match call_redactor f s with Ok m => VStr m | Raise _ => v end
      | None => v
      end
  | _ => v
  end.

(** The mask the second loop computes for a field it visits. *)
Definition quasi_mask (key s : string) : result string :=
  if String.eqb key "name" then redact_name s
  else if String.eqb key "email" then redact_email s
  else if String.eqb key "address" then Ok "[REDACTED_ADDRESS]"
  else if String.eqb key "device_id" then Ok "[REDACTED_DEVICE_ID]"
  else if String.eqb key "ip_address" then Ok "[REDACTED_IP]"
  else Ok s.

(** The value the second loop leaves under [key]. *)
Definition quasi_masked (key : string) (v : value) : value :=
  match v with
  | VStr s =>
      if in_fields key combinatorial_pii_fields then
        match quasi_mask key s with Ok m => VStr m | Raise _ => v end
      else v
  | _ => v
  end.

(** The second loop meets no exception on this entry. *)
Definition mask_defined (key : string) (v : value) : bool :=
  match v with
  | VStr s =>
      if in_fields key combinatorial_pii_fields then
        match quasi_mask key s with Ok _ => true | Raise _ => false end
      else true
  | _ => true
  end.

Definition on_entry {A : Type} (f : string -> value -> A)
    (e : string * value) : A := f (fst e) (snd e).

Definition map_values (f : string -> value -> value) (d : dict) : dict :=
  map (fun e => (fst e, on_entry f e)) d.

Definition standalone_fired (d : dict) : bool := existsb (on_entry fires) d.

(** The number of combinatorial fields the first loop counts. *)
Definition quasi_count (d : dict) : nat :=
  List.length (List.filter (on_entry counts) d).

Definition combinatorial (d : dict) : bool := (2 <=? quasi_count d)%nat.

Definition masks_defined (d : dict) : bool := forallb (on_entry mask_defined) d.

(** The number of keys of the record that are combinatorial field names,
    whatever their values. *)
Definition quasi_keys_present (d : dict) : nat :=
  List.length
    (List.filter (fun k => in_fields k combinatorial_pii_fields) (keys d)).

(** The record [detect_pii] returns, when it returns. *)
Definition redacted (d : dict) : dict :=
  if combinatorial d
  then map_values quasi_masked (map_values standalone_masked d)
  else map_values standalone_masked d.

(** The entry is a [name] whose value is the empty string or an [email]
    whose value has no [@]: the values [redact_name] and [redact_email]
    index out of range on. *)
Definition undersized (key : string) (v : value) : bool :=
  match v with
  | VStr s =>
      String.eqb key "name" && String.eqb s ""
      || String.eqb key "email" && negb (Str.contains "@" s)
  | _ => false
  end.

(** The records on which [detect_pii] raises: the second loop runs and
    meets an undersized entry. *)
Definition raises (d : dict) : bool :=
  combinatorial d && existsb (on_entry undersized) d.

(** The state of the three locals after the first loop has read [items]. *)
Definition scan_entry (st : locals) (e : string * value) : locals :=
  Locals (standalone_pii_found st || on_entry fires e)
         (if on_entry counts e then S (combinatorial_pii_count st)
          else combinatorial_pii_count st)
         (if on_entry counts e then combinatorial_fields_found st ++ [fst e]
          else combinatorial_fields_found st).

(** [runs_at r m cur res cur']: run on any store whose object [r] is
    [cur], the computation [m] gives [res] and changes nothing but the
    object [r], which becomes [cur']. *)
Definition runs_at {A : Type} (r : ref) (m : M A) (cur : dict)
    (res : result A) (cur' : dict) : Prop :=
  forall h : store, h !! r = Some cur -> m h = (res, <[r := cur']> h).

(** [must_have c r]: every string [r] matches holds the character [c],
    read off the shape of [r]. *)
Fixpoint must_have (c : ascii) (r : regex) : bool :=
  match r with
  | One (Lit x) => Ascii.eqb x c
  | Cat r1 r2 => must_have c r1 || must_have c r2
  | Alt r1 r2 => must_have c r1 && must_have c r2
  | _ => false
  end.

(** A result that, when it is an exception, is [IndexError]. *)
Definition only_index_error {A : Type} (r : result A) : Prop :=
  forall e, r = Raise e -> e = IndexError.

(** What one turn of the second loop returns on a field with the string
    value [s]. *)
Definition mask_outcome (key s : string) : result unit :=
  match quasi_mask key s with Ok _ => Ok tt | Raise e => Raise e end.

(** The outcome of [detect_pii] on a record, given the reference [r] of
    the copy it returns. *)
Definition outcome (d : dict) (r : ref) : result (bool * ref) :=
  if combinatorial d && negb (masks_defined d) then Raise IndexError
  else Ok (standalone_fired d || combinatorial d, r).

(** ** Vocabulary for the properties of the redactors and the patterns *)

(** The number of characters of [s] that satisfy [p]. *)
Fixpoint count_if (p : ascii -> bool) (s : string) : nat :=
  match s with
  | EmptyString => 0
  | String x s' => (if p x then 1 else 0) + count_if p s'
  end.

Definition is_at (c : ascii) : bool := Ascii.eqb c "@".

(** The character before the position reached by reading [t], when the
    character before [t] was [prev]. *)
Fixpoint last_char (prev : option ascii) (t : string) : option ascii :=
  match t with
  | EmptyString => prev
  | String x t' => last_char (Some x) t'
  end.

(** [s] holds a run of exactly [n] digits that is a whole token: no word
    character stands right before it or right after it. *)
Definition digit_token (n : nat) (s : string) : Prop :=
  exists pre mid post,
    s = pre +:+ mid +:+ post
    /\ String.length mid = n
    /\ Str.all Str.is_digit mid = true
    /\ word_before (last_char None pre) = false
    /\ word_here post = false.

(** [s] holds an upper-case letter followed by exactly seven digits, as a
    whole token. *)
Definition passport_token (s : string) : Prop :=
  exists pre c mid post,
    s = pre +:+ String c mid +:+ post
    /\ Str.is_upper_az c = true
    /\ String.length mid = 7
    /\ Str.all Str.is_digit mid = true
    /\ word_before (last_char None pre) = false
    /\ word_here post = false.

(** [s] holds ten digits right before an [@]. *)
Definition ten_digits_at (s : string) : Prop :=
  exists pre mid post,
    s = pre +:+ mid +:+ String "@" post
    /\ String.length mid = 10
    /\ Str.all Str.is_digit mid = true.

(** The keys the four branches of the first loop compare [key] with
    (lines 26-35). *)
Definition standalone_fields : list string :=
  ["phone"; "aadhar"; "passport"; "upi_id"].

(** ** [process_csv]: one row *)

(** Lines 97-102, for a row whose cell [json.loads] has parsed into the
    record [data_json]: the [try] body calls [detect_pii] and appends the
    serialised redacted record and the flag; the bare [except] appends the
    cell as it was read and [False]. [json_dumps] stands for [json.dumps],
    which returns on every record of strings, numbers and nulls. *)
Definition row_result (json_dumps : dict -> string) (cell : string)
    (data_json : dict) : string * bool :=
  match run_detect_pii data_json with
  | Ok (is_pii, redacted_data) => (json_dumps redacted_data, is_pii)
  | Raise _ => (cell, false)
  end.

(** * Properties *)

(** ** The scenarios of the specification *)

Example scenario_phone_name :
  run_detect_pii [("phone", VStr "9876543210"); ("name", VStr "John")]
  = Ok (true, [("phone", VStr "98XXXXXX10"); ("name", VStr "John")]).
Proof. reflexivity. Qed.

Example scenario_name_email :
  run_detect_pii [("name", VStr "John Doe"); ("email", VStr "john@x.com")]
  = Ok (true, [("name", VStr "JXXX DXXX"); ("email", VStr "joXXX@x.com")]).
Proof. reflexivity. Qed.

(** [\b] makes the digits a whole token: a longer run of digits or a
    neighbouring letter prevents the match, a neighbouring sign does not. *)
Example phone_pattern_tokens :
  search phone_pattern "call 9876543210 now" = true
  /\ search phone_pattern "+9876543210" = true
  /\ search phone_pattern "98765432101" = false
  /\ search phone_pattern "a9876543210" = false.
Proof. repeat split. Qed.

Example upi_pattern_alternatives :
  search upi_pattern "john.doe@bank.co" = true
  /\ search upi_pattern "9876543210@upi" = true
  /\ search upi_pattern "987654321@upi" = false
  /\ search upi_pattern "john.doe" = false.
Proof. repeat split. Qed.

Example scenario_city :
  run_detect_pii [("city", VStr "Pune")] = Ok (false, [("city", VStr "Pune")]).
Proof. reflexivity. Qed.

(** ** Strings: slices and splits *)

Section StringFacts.

Lemma ascii_eqb_true (a b : ascii) : Ascii.eqb a b = true <-> a = b.
Proof. apply Ascii.eqb_eq. Qed.

Lemma app_cons (c : ascii) (a b : string) :
  String c a +:+ b = String c (a +:+ b).
Proof. reflexivity. Qed.

Lemma app_assoc_str (a b c : string) : a +:+ (b +:+ c) = (a +:+ b) +:+ c.
Proof.
  induction a as [|x a IH]; [reflexivity|].
  rewrite !app_cons, IH. reflexivity.
Qed.

Lemma contains_app (c : ascii) (a b : string) :
  Str.contains c (a +:+ b) = Str.contains c a || Str.contains c b.
Proof.
  induction a as [|x a IH]; [reflexivity|].
  rewrite app_cons. simpl. rewrite IH. apply orb_assoc.
Qed.

(** [split] cuts at the first separator and splits what follows it. *)
Lemma split_on_unfold (sep : ascii) (s : string) :
  Str.split_on sep s
  = Str.before sep s
    :: (if Str.contains sep s then Str.split_on sep (Str.after sep s)
        else []).
Proof.
  induction s as [|c s IH]; simpl; [reflexivity|].
  destruct (Ascii.eqb c sep); simpl; [reflexivity|].
  rewrite IH. reflexivity.
Qed.

Lemma split_on_first (sep : ascii) (s : string) :
  item (Str.split_on sep s) 0 = Ok (Str.before sep s).
Proof. rewrite split_on_unfold. reflexivity. Qed.

Lemma split_on_second (sep : ascii) (s : string) :
  item (Str.split_on sep s) 1
  = if Str.contains sep s then Ok (Str.before sep (Str.after sep s))
    else Raise IndexError.
Proof.
  rewrite split_on_unfold. destruct (Str.contains sep s); [|reflexivity].
  rewrite split_on_unfold. reflexivity.
Qed.

Lemma before_no_sep (sep : ascii) (s : string) :
  Str.contains sep s = false -> Str.before sep s = s.
Proof.
  induction s as [|c s IH]; simpl; [reflexivity|].
  destruct (Ascii.eqb c sep); simpl; [discriminate|].
  intros H. rewrite IH; auto.
Qed.

(** A string is its part before the first separator, the separator, and
    the part after it. *)
Lemma before_sep_after (sep : ascii) (s : string) :
  Str.contains sep s = true ->
  s = Str.before sep s +:+ String sep (Str.after sep s).
Proof.
  induction s as [|c s IH]; simpl; [discriminate|].
  destruct (Ascii.eqb c sep) eqn:E; simpl.
  - intros _. apply ascii_eqb_true in E. subst c. reflexivity.
  - intros H. rewrite app_cons. f_equal. apply IH, H.
Qed.

Lemma before_lacks_sep (sep : ascii) (s : string) :
  Str.contains sep (Str.before sep s) = false.
Proof.
  induction s as [|c s IH]; simpl; [reflexivity|].
  destruct (Ascii.eqb c sep) eqn:E; simpl; [reflexivity|].
  rewrite E. exact IH.
Qed.

End StringFacts.

(** ** What a match of a pattern tells about the string *)

Section RegexFacts.

Lemma match_plus_inv cs k prev s :
  match_plus cs k prev s = true ->
  exists t p s', s = t +:+ s' /\ k p s' = true.
Proof.
  revert prev. induction s as [|x s IH]; simpl; intros prev H.
  - discriminate.
  - apply andb_true_iff in H as [_ H]. apply orb_true_iff in H as [H|H].
    + exists (String x EmptyString), (Some x), s. split; [reflexivity|exact H].
    + destruct (IH _ H) as (t & p & s' & -> & Hk).
      exists (String x t), p, s'. split; [reflexivity|exact Hk].
Qed.

Lemma match_repeat_inv n cs k prev s :
  match_repeat n cs k prev s = true ->
  exists t p s', s = t +:+ s' /\ k p s' = true.
Proof.
  revert prev s. induction n as [|n IH]; simpl; intros prev s H.
  - exists EmptyString, prev, s. split; [reflexivity|exact H].
  - destruct s as [|x s]; [discriminate|].
    apply andb_true_iff in H as [_ H].
    destruct (IH _ _ H) as (t & p & s' & -> & Hk).
    exists (String x t), p, s'. split; [reflexivity|exact Hk].
Qed.

(** A successful [rmatch] read a prefix [t] of the string and handed the
    rest to its continuation; [t] holds every character the pattern must
    have. *)
Lemma rmatch_inv (c : ascii) (r : regex) :
  forall prev s k,
    rmatch r prev s k = true ->
    exists t p s',
      s = t +:+ s' /\ k p s' = true
      /\ (must_have c r = true -> Str.contains c t = true).
Proof.
  induction r as [|cs|cs|n cs|r1 IH1 r2 IH2|r1 IH1 r2 IH2];
    intros prev s k H; simpl in H.
  - apply andb_true_iff in H as [_ H].
    exists EmptyString, prev, s. repeat split; [exact H|discriminate].
  - destruct s as [|x s]; [discriminate|].
    apply andb_true_iff in H as [Hm H].
    exists (String x EmptyString), (Some x), s. repeat split; [exact H|].
    destruct cs; simpl; try discriminate.
    simpl in Hm. apply ascii_eqb_true in Hm. subst x.
    intros ->. reflexivity.
  - destruct (match_plus_inv _ _ _ _ H) as (t & p & s' & E & Hk).
    exists t, p, s'. repeat split; [exact E|exact Hk|discriminate].
  - destruct (match_repeat_inv _ _ _ _ _ H) as (t & p & s' & E & Hk).
    exists t, p, s'. repeat split; [exact E|exact Hk|discriminate].
  - destruct (IH1 _ _ _ H) as (t1 & p1 & s1 & -> & H2 & M1).
    destruct (IH2 _ _ _ H2) as (t2 & p2 & s2 & -> & Hk & M2).
    exists (t1 +:+ t2), p2, s2. split; [|split; [exact Hk|]].
    + apply app_assoc_str.
    + simpl. intros M. rewrite contains_app.
      apply orb_true_iff in M as [M|M];
        [rewrite (M1 M)|rewrite (M2 M), orb_true_r]; reflexivity.
  - apply orb_true_iff in H as [H|H].
    + destruct (IH1 _ _ _ H) as (t & p & s' & E & Hk & M).
      exists t, p, s'. repeat split; [exact E|exact Hk|].
      simpl. intros M'. apply andb_true_iff in M' as [M' _]. auto.
    + destruct (IH2 _ _ _ H) as (t & p & s' & E & Hk & M).
      exists t, p, s'. repeat split; [exact E|exact Hk|].
      simpl. intros M'. apply andb_true_iff in M' as [_ M']. auto.
Qed.

Lemma search_from_must_have (c : ascii) (r : regex) (s : string) :
  must_have c r = true ->
  forall prev, search_from r prev s = true -> Str.contains c s = true.
Proof.
  intros M. induction s as [|x s IH]; intros prev H; simpl in H.
  - rewrite orb_false_r in H.
    destruct (rmatch_inv c r _ _ _ H) as (t & p & s' & E & _ & Ht).
    rewrite E, contains_app, (Ht M). reflexivity.
  - apply orb_true_iff in H as [H|H].
    + destruct (rmatch_inv c r _ _ _ H) as (t & p & s' & E & _ & Ht).
      rewrite E, contains_app, (Ht M). reflexivity.
    + simpl. rewrite (IH _ H). apply orb_true_r.
Qed.

(** A value the UPI pattern finds a match in holds an [@]. *)
Lemma upi_match_has_at (s : string) :
  search upi_pattern s = true -> Str.contains "@" s = true.
Proof. apply search_from_must_have. reflexivity. Qed.

(** A value the passport pattern finds a match in is not empty. *)
Lemma passport_match_nonempty (s : string) :
  search passport_pattern s = true -> s <> EmptyString.
Proof. intros H ->. discriminate H. Qed.

Lemma digit_is_word (c : ascii) : Str.is_digit c = true -> Str.is_word c = true.
Proof. unfold Str.is_digit, Str.is_word. intros ->. reflexivity. Qed.

End RegexFacts.

(** ** Dictionaries *)

Section DictFacts.

Lemma get_app_notin (k : string) (d1 d2 : dict) :
  k ∉ keys d1 -> Dict.get k (d1 ++ d2) = Dict.get k d2.
Proof.
  induction d1 as [|[k' v'] d1 IH]; simpl; intros H; [reflexivity|].
  destruct (String.eqb_spec k k') as [->|Hne].
  - exfalso. apply H. left.
  - apply IH. intros Hin. apply H. right. exact Hin.
Qed.

Lemma get_head (k : string) (v : value) (d : dict) :
  Dict.get k ((k, v) :: d) = Some v.
Proof. simpl. rewrite String.eqb_refl. reflexivity. Qed.

Lemma set_app_notin (k : string) (v : value) (d1 d2 : dict) :
  k ∉ keys d1 -> Dict.set k v (d1 ++ d2) = d1 ++ Dict.set k v d2.
Proof.
  induction d1 as [|[k' v'] d1 IH]; simpl; intros H; [reflexivity|].
  destruct (String.eqb_spec k k') as [->|Hne].
  - exfalso. apply H. left.
  - f_equal. apply IH. intros Hin. apply H. right. exact Hin.
Qed.

Lemma set_head (k : string) (v v' : value) (d : dict) :
  Dict.set k v' ((k, v) :: d) = (k, v') :: d.
Proof. simpl. rewrite String.eqb_refl. reflexivity. Qed.

Lemma keys_set_present (k : string) (v : value) (d : dict) :
  Dict.has k d = true -> keys (Dict.set k v d) = keys d.
Proof.
  unfold Dict.has. induction d as [|[k' v'] d IH]; simpl; [discriminate|].
  destruct (String.eqb k k'); simpl; intros H; [reflexivity|].
  f_equal. apply IH, H.
Qed.

Lemma keys_map_values (f : string -> value -> value) (d : dict) :
  keys (map_values f d) = keys d.
Proof.
  unfold keys, map_values. rewrite map_map. apply map_ext. reflexivity.
Qed.

Lemma get_map_values (f : string -> value -> value) (k : string) (d : dict) :
  Dict.get k (map_values f d) = option_map (f k) (Dict.get k d).
Proof.
  induction d as [|[k' v'] d IH]; simpl; [reflexivity|].
  destruct (String.eqb_spec k k') as [->|Hne]; [reflexivity|exact IH].
Qed.

Lemma get_Some_in (k : string) (v : value) (d : dict) :
  Dict.get k d = Some v -> (k, v) ∈ d.
Proof.
  induction d as [|[k' v'] d IH]; simpl; [discriminate|].
  destruct (String.eqb_spec k k') as [->|Hne].
  - intros [= ->]. left.
  - intros H. right. apply IH, H.
Qed.

Lemma in_get_Some (k : string) (v : value) (d : dict) :
  wf_record d -> (k, v) ∈ d -> Dict.get k d = Some v.
Proof.
  unfold wf_record.
  induction d as [|[k' v'] d IH]; simpl; intros Hnd Hin.
  - inversion Hin.
  - apply NoDup_cons in Hnd as [Hk Hnd].
    apply elem_of_cons in Hin as [[= <- <-]|Hin].
    + rewrite String.eqb_refl. reflexivity.
    + destruct (String.eqb_spec k k') as [->|Hne]; [|apply IH; assumption].
      exfalso. apply Hk. apply list_elem_of_fmap. exists (k', v). auto.
Qed.

Lemma get_None_notin (k : string) (d : dict) :
  Dict.get k d = None <-> k ∉ keys d.
Proof.
  induction d as [|[k' v'] d IH]; simpl.
  - split; [intros _ H; inversion H|reflexivity].
  - destruct (String.eqb_spec k k') as [->|Hne].
    + split; [discriminate|]. intros H. exfalso. apply H. left.
    + rewrite IH. split; intros H Hin.
      * apply elem_of_cons in Hin as [?|?]; [congruence|auto].
      * apply H. right. exact Hin.
Qed.

End DictFacts.

(** ** Computations that touch one object of the store *)

Section RunsAt.

Context {A B : Type}.

Lemma runs_ret (r : ref) (a : A) (cur : dict) :
  runs_at r (ret a) cur (Ok a) cur.
Proof. intros h Hr. unfold ret. rewrite list_insert_id; auto. Qed.

Lemma runs_lift (r : ref) (x : result A) (cur : dict) :
  runs_at r (lift x) cur x cur.
Proof. intros h Hr. unfold lift. rewrite list_insert_id; auto. Qed.

Lemma runs_bind_ok (r : ref) (m : M A) (k : A -> M B) (a : A)
    (cur cur1 cur2 : dict) (res : result B) :
  runs_at r m cur (Ok a) cur1 ->
  runs_at r (k a) cur1 res cur2 ->
  runs_at r (bind m k) cur res cur2.
Proof.
  intros Hm Hk h Hr. unfold bind. rewrite (Hm h Hr).
  rewrite (Hk (<[r := cur1]> h)).
  - rewrite list_insert_insert_eq. reflexivity.
  - apply list_lookup_insert_eq. eapply lookup_lt_Some, Hr.
Qed.

Lemma runs_bind_raise (r : ref) (m : M A) (k : A -> M B) (e : exn)
    (cur cur1 : dict) :
  runs_at r m cur (Raise e) cur1 ->
  runs_at r (bind m k) cur (Raise e) cur1.
Proof. intros Hm h Hr. unfold bind. rewrite (Hm h Hr). reflexivity. Qed.

End RunsAt.

Section RunsAtDict.

Lemma runs_has (r : ref) (k : string) (cur : dict) :
  runs_at r (dict_has r k) cur (Ok (Dict.has k cur)) cur.
Proof.
  intros h Hr. unfold dict_has. rewrite Hr, list_insert_id; auto.
Qed.

Lemma runs_getitem (r : ref) (k : string) (v : value) (cur : dict) :
  Dict.get k cur = Some v ->
  runs_at r (dict_getitem r k) cur (Ok v) cur.
Proof.
  intros Hk h Hr. unfold dict_getitem. rewrite Hr, Hk, list_insert_id; auto.
Qed.

Lemma runs_setitem (r : ref) (k : string) (v : value) (cur : dict) :
  runs_at r (dict_setitem r k v) cur (Ok tt) (Dict.set k v cur).
Proof. intros h Hr. unfold dict_setitem. rewrite Hr. reflexivity. Qed.

End RunsAtDict.

(** ** The redactors *)

Section Redactors.

Lemma redact_upi_at (s : string) :
  Str.contains "@" s = true ->
  redact_upi s
  = Ok (Str.take 2 (Str.before "@" s) +:+ "XXX@"
        +:+ Str.before "@" (Str.after "@" s)).
Proof.
  intros H. unfold redact_upi. rewrite H.
  cbv zeta. rewrite split_on_first, split_on_second, H. reflexivity.
Qed.

Lemma redact_email_at (s : string) :
  Str.contains "@" s = true ->
  redact_email s
  = Ok (Str.take 2 (Str.before "@" s) +:+ "XXX@"
        +:+ Str.before "@" (Str.after "@" s)).
Proof.
  intros H. unfold redact_email.
  cbv zeta. rewrite split_on_first, split_on_second, H. reflexivity.
Qed.

Lemma redact_email_no_at (s : string) :
  Str.contains "@" s = false -> redact_email s = Raise IndexError.
Proof.
  intros H. unfold redact_email.
  cbv zeta. rewrite split_on_first, split_on_second, H. reflexivity.
Qed.

Lemma redact_passport_nonempty (s : string) :
  s <> EmptyString -> exists m, redact_passport s = Ok m.
Proof.
  destruct s as [|c s]; [congruence|]. intros _.
  eexists. reflexivity.
Qed.

(** The pattern test of a branch guards the call of its redactor: a
    redactor the first loop calls returns. *)
Lemma rule_call_ok (key s : string) (f : redactor) :
  standalone_rule key s = Some f -> exists m, call_redactor f s = Ok m.
Proof.
  unfold standalone_rule.
  destruct (String.eqb key "phone" && search phone_pattern s) eqn:E1.
  { intros [= <-]. eexists. reflexivity. }
  destruct (String.eqb key "aadhar" && search aadhar_pattern s) eqn:E2.
  { intros [= <-]. eexists. reflexivity. }
  destruct (String.eqb key "passport" && search passport_pattern s) eqn:E3.
  { intros [= <-]. apply andb_true_iff in E3 as [_ E3].
    apply redact_passport_nonempty, passport_match_nonempty, E3. }
  destruct (String.eqb key "upi_id" && search upi_pattern s) eqn:E4.
  { intros [= <-]. apply andb_true_iff in E4 as [_ E4].
    eexists. apply redact_upi_at, upi_match_has_at, E4. }
  discriminate.
Qed.

Lemma in_fields_cases (key : string) :
  in_fields key combinatorial_pii_fields = true ->
  key = "name" \/ key = "email" \/ key = "address" \/ key = "device_id"
  \/ key = "ip_address".
Proof.
  unfold in_fields, combinatorial_pii_fields. simpl.
  rewrite !orb_true_iff, !String.eqb_eq. intuition discriminate.
Qed.

(** No combinatorial field name is the key of a standalone rule. *)
Lemma quasi_key_no_rule (key s : string) :
  in_fields key combinatorial_pii_fields = true ->
  standalone_rule key s = None.
Proof.
  intros H. apply in_fields_cases in H.
  destruct H as [->|[->|[->|[->| ->]]]]; reflexivity.
Qed.

Lemma standalone_masked_counts (key : string) (v : value) :
  counts key v = true -> standalone_masked key v = v.
Proof.
  unfold counts, standalone_masked. destruct v as [s| |]; try discriminate.
  simpl. intros H. rewrite (quasi_key_no_rule _ _ H). reflexivity.
Qed.

Lemma counts_standalone_masked (key : string) (v : value) :
  counts key (standalone_masked key v) = counts key v.
Proof.
  unfold counts, standalone_masked. destruct v as [s| |]; try reflexivity.
  destruct (standalone_rule key s); [|reflexivity].
  destruct (call_redactor r s); reflexivity.
Qed.

Lemma only_index_ok {A : Type} (a : A) : only_index_error (Ok a).
Proof. intros e. discriminate. Qed.

Lemma only_index_item {A : Type} (l : list A) (i : nat) :
  only_index_error (item l i).
Proof. intros e. unfold item. destruct (l !! i); congruence. Qed.

Lemma only_index_char_at (s : string) (i : nat) :
  only_index_error (char_at s i).
Proof. intros e. unfold char_at. destruct (String.get i s); congruence. Qed.

Lemma only_index_last_item {A : Type} (l : list A) :
  only_index_error (last_item l).
Proof.
  intros e. unfold last_item. destruct (List.last (map Some l) None); congruence.
Qed.

Lemma only_index_bind {A B : Type} (m : result A) (k : A -> result B) :
  only_index_error m -> (forall a, only_index_error (k a)) ->
  only_index_error (rbind m k).
Proof.
  intros Hm Hk e. destruct m as [a|e']; simpl; [apply Hk|].
  intros [= <-]. apply Hm. reflexivity.
Qed.

Ltac only_index :=
  repeat first
    [ apply only_index_ok | apply only_index_item | apply only_index_char_at
    | apply only_index_last_item | apply only_index_bind; [|intros ?] ].

(** The redactors of the second loop raise nothing but [IndexError]. *)
Lemma quasi_mask_raises (key s : string) : only_index_error (quasi_mask key s).
Proof.
  unfold quasi_mask, redact_name, redact_email.
  repeat match goal with
         | |- only_index_error (if ?b then _ else _) => destruct b
         end; cbv zeta; only_index.
Qed.

End Redactors.

(** ** The first loop *)

Section FirstLoop.

Lemma set_same (k : string) (v : value) (d : dict) :
  Dict.get k d = Some v -> Dict.set k v d = d.
Proof.
  induction d as [|[k' v'] d IH]; simpl; [discriminate|].
  destruct (String.eqb_spec k k') as [->|Hne].
  - intros [= ->]. reflexivity.
  - intros H. f_equal. apply IH, H.
Qed.

Lemma get_has (k : string) (v : value) (d : dict) :
  Dict.get k d = Some v -> Dict.has k d = true.
Proof. unfold Dict.has. intros ->. reflexivity. Qed.

Lemma locals_eta (st : locals) :
  Locals (standalone_pii_found st) (combinatorial_pii_count st)
         (combinatorial_fields_found st) = st.
Proof. destruct st. reflexivity. Qed.

(** One turn of the first loop: the entry is folded into the locals, and
    the copy holds the standalone mask under the entry's key. *)
Lemma scan_item_runs (r : ref) (key : string) (v : value) (st : locals)
    (cur : dict) :
  Dict.get key cur = Some v ->
  runs_at r (scan_item r key v st) cur (Ok (scan_entry st (key, v)))
    (Dict.set key (standalone_masked key v) cur).
Proof.
  intros Hk h Hr.
  unfold scan_item, scan_entry, on_entry, fires, counts, standalone_masked.
  cbn [fst snd]. generalize (in_fields key combinatorial_pii_fields).
  intros q.
  destruct v as [s|n|]; simpl.
  - destruct (standalone_rule key s) as [f|] eqn:E.
    + destruct (rule_call_ok _ _ _ E) as [m Hm].
      unfold bind, lift, dict_setitem, ret. rewrite Hm, Hr, orb_true_r.
      destruct q; reflexivity.
    + unfold bind, ret. rewrite orb_false_r, (set_same _ _ _ Hk).
      rewrite list_insert_id by exact Hr.
      destruct q; reflexivity.
  - unfold ret. rewrite orb_false_r, locals_eta, (set_same _ _ _ Hk).
    rewrite list_insert_id by exact Hr. reflexivity.
  - unfold ret. rewrite orb_false_r, locals_eta, (set_same _ _ _ Hk).
    rewrite list_insert_id by exact Hr. reflexivity.
Qed.

Lemma keys_app (d1 d2 : dict) : keys (d1 ++ d2) = keys d1 ++ keys d2.
Proof. apply map_app. Qed.

Lemma head_key_fresh (k : string) (v : value) (d1 d2 : dict) :
  NoDup (keys (d1 ++ (k, v) :: d2)) -> k ∉ keys d1.
Proof.
  rewrite keys_app. simpl. intros H Hin.
  apply NoDup_app in H as (_ & H & _). apply (H k Hin). left.
Qed.

Lemma scan_items_runs (r : ref) (items : dict) :
  forall (done : dict) (st : locals),
    NoDup (keys (done ++ items)) ->
    runs_at r (scan_items r items st) (done ++ items)
      (Ok (fold_left scan_entry items st))
      (done ++ map_values standalone_masked items).
Proof.
  induction items as [|[k v] items IH]; intros done st Hnd.
  - apply runs_ret.
  - pose proof (head_key_fresh _ _ _ _ Hnd) as Hk.
    simpl scan_items. eapply runs_bind_ok.
    + apply scan_item_runs. rewrite get_app_notin by exact Hk. apply get_head.
    + rewrite set_app_notin by exact Hk. rewrite set_head.
      simpl. rewrite (cons_middle _ done), (cons_middle _ done).
      rewrite !app_assoc. apply IH.
      rewrite <- app_assoc, !keys_app in *. exact Hnd.
Qed.

(** The locals after the first loop, in closed form. *)
Lemma scan_closed_form (items : dict) :
  forall st,
    fold_left scan_entry items st
    = Locals (standalone_pii_found st || existsb (on_entry fires) items)
        (combinatorial_pii_count st
         + List.length (List.filter (on_entry counts) items))
        (combinatorial_fields_found st
         ++ keys (List.filter (on_entry counts) items)).
Proof.
  induction items as [|e items IH]; intros st; simpl.
  - rewrite orb_false_r, Nat.add_0_r, app_nil_r. symmetry. apply locals_eta.
  - rewrite IH. unfold scan_entry at 1 2 3. simpl.
    destruct (on_entry counts e); simpl.
    + rewrite orb_assoc, <- app_assoc. f_equal. lia.
    + rewrite orb_assoc. reflexivity.
Qed.

End FirstLoop.

(** ** The second loop *)

Section SecondLoop.

(** One turn of the second loop on a field that the copy holds with a
    string value. *)
Lemma mask_field_runs (r : ref) (key s : string) (cur : dict) :
  in_fields key combinatorial_pii_fields = true ->
  Dict.get key cur = Some (VStr s) ->
  runs_at r (mask_field r key) cur (mask_outcome key s)
    (Dict.set key (quasi_masked key (VStr s)) cur).
Proof.
  intros Hf Hk h Hr.
  pose proof (get_has _ _ _ Hk) as Hh.
  unfold quasi_masked, mask_outcome. rewrite Hf.
  apply in_fields_cases in Hf.
  destruct Hf as [->|[->|[->|[->| ->]]]];
    unfold mask_field, is_field, bind, ret, lift, dict_has, dict_getitem,
      dict_setitem, quasi_mask;
    cbn [String.eqb Ascii.eqb Bool.eqb andb];
    repeat (first [rewrite Hr | rewrite Hh | rewrite Hk];
            cbv beta iota; cbn [as_str rbind]);
    try reflexivity.
  - destruct (redact_name s); cbv beta iota;
      rewrite ?Hr, ?(set_same _ _ _ Hk), ?list_insert_id by exact Hr;
      reflexivity.
  - destruct (redact_email s); cbv beta iota;
      rewrite ?Hr, ?(set_same _ _ _ Hk), ?list_insert_id by exact Hr;
      reflexivity.
Qed.

Lemma counts_inv (key : string) (v : value) :
  counts key v = true ->
  exists s, v = VStr s /\ in_fields key combinatorial_pii_fields = true.
Proof.
  unfold counts. destruct v as [s| |]; simpl; try discriminate.
  intros H. exists s. auto.
Qed.

Lemma not_counts_untouched (key : string) (v : value) :
  counts key v = false ->
  quasi_masked key v = v /\ mask_defined key v = true.
Proof.
  unfold counts, quasi_masked, mask_defined.
  destruct v as [s| |]; simpl; auto.
  intros ->. auto.
Qed.

Lemma mask_defined_str (key s : string) :
  in_fields key combinatorial_pii_fields = true ->
  mask_defined key (VStr s)
  = match quasi_mask key s with Ok _ => true | Raise _ => false end.
Proof. unfold mask_defined. intros ->. reflexivity. Qed.

Lemma quasi_masked_str (key s : string) :
  in_fields key combinatorial_pii_fields = true ->
  quasi_masked key (VStr s)
  = match quasi_mask key s with Ok m => VStr m | Raise _ => VStr s end.
Proof. unfold quasi_masked. intros ->. reflexivity. Qed.

Lemma mask_fields_runs (r : ref) (items : dict) :
  forall done : dict,
    NoDup (keys (done ++ items)) ->
    exists cur',
      keys cur' = keys (done ++ items)
      /\ runs_at r
           (mask_fields r (keys (List.filter (on_entry counts) items)))
           (done ++ items)
           (if forallb (on_entry mask_defined) items then Ok tt
            else Raise IndexError)
           cur'
      /\ (forallb (on_entry mask_defined) items = true ->
          cur' = done ++ map_values quasi_masked items).
Proof.
  induction items as [|[k v] items IH]; intros done Hnd.
  - exists (done ++ []). split; [reflexivity|]. split; [apply runs_ret|].
    reflexivity.
  - pose proof (head_key_fresh _ _ _ _ Hnd) as Hk.
    assert (Hshape : forall v', done ++ (k, v') :: items
                                = (done ++ [(k, v')]) ++ items).
    { intros v'. rewrite <- app_assoc. reflexivity. }
    assert (Hkeys : forall v', keys ((done ++ [(k, v')]) ++ items)
                               = keys (done ++ (k, v) :: items)).
    { intros v'. rewrite <- Hshape, !keys_app. reflexivity. }
    simpl List.filter. simpl forallb.
    change (on_entry counts (k, v)) with (counts k v).
    change (on_entry mask_defined (k, v)) with (mask_defined k v).
    destruct (counts k v) eqn:Hc.
    + destruct (counts_inv _ _ Hc) as (s & -> & Hf).
      simpl keys. simpl mask_fields.
      assert (Hget : Dict.get k (done ++ (k, VStr s) :: items)
                     = Some (VStr s)).
      { rewrite get_app_notin by exact Hk. apply get_head. }
      pose proof (mask_field_runs r k s _ Hf Hget) as Hrun.
      rewrite set_app_notin, set_head in Hrun by exact Hk.
      unfold mask_outcome in Hrun.
      rewrite (quasi_masked_str _ _ Hf) in Hrun.
      rewrite (mask_defined_str _ _ Hf).
      destruct (quasi_mask k s) as [m|e] eqn:Hm.
      * destruct (IH (done ++ [(k, VStr m)])) as (cur' & Hk' & Hr' & Hd').
        { rewrite Hkeys. exact Hnd. }
        exists cur'. split; [rewrite Hk'; apply Hkeys|].
        split.
        -- eapply runs_bind_ok; [exact Hrun|].
           rewrite Hshape. exact Hr'.
        -- intros Hall. apply andb_true_iff in Hall as [_ Hall].
           rewrite (Hd' Hall), <- app_assoc.
           unfold map_values. simpl.
           change (on_entry quasi_masked (k, VStr s))
             with (quasi_masked k (VStr s)).
           rewrite (quasi_masked_str _ _ Hf), Hm. reflexivity.
      * pose proof (quasi_mask_raises _ _ _ Hm) as ->.
        exists (done ++ (k, VStr s) :: items).
        split; [reflexivity|]. split; [|discriminate].
        apply runs_bind_raise. exact Hrun.
    + destruct (not_counts_untouched _ _ Hc) as [Hq Hmd]. rewrite Hmd.
      destruct (IH (done ++ [(k, v)])) as (cur' & Hk' & Hr' & Hd').
      { rewrite Hkeys. exact Hnd. }
      exists cur'. split; [rewrite Hk'; apply Hkeys|].
      split.
      * rewrite Hshape. exact Hr'.
      * intros Hall. apply andb_true_iff in Hall as [_ Hall].
        rewrite (Hd' Hall), <- app_assoc.
        unfold map_values. simpl.
        change (on_entry quasi_masked (k, v)) with (quasi_masked k v).
        rewrite Hq. reflexivity.
Qed.

End SecondLoop.

(** ** [detect_pii] on the store *)

Section DetectPii.

Lemma mask_defined_standalone_masked (key : string) (v : value) :
  mask_defined key (standalone_masked key v) = mask_defined key v.
Proof.
  destruct (counts key v) eqn:Hc.
  - rewrite (standalone_masked_counts _ _ Hc). reflexivity.
  - destruct (not_counts_untouched _ _ Hc) as [_ ->].
    rewrite <- counts_standalone_masked in Hc.
    destruct (not_counts_untouched _ _ Hc) as [_ ->]. reflexivity.
Qed.

Lemma masks_defined_after_scan (d : dict) :
  forallb (on_entry mask_defined) (map_values standalone_masked d)
  = masks_defined d.
Proof.
  unfold masks_defined, map_values. induction d as [|[k v] d IH]; simpl.
  - reflexivity.
  - rewrite IH. f_equal. apply mask_defined_standalone_masked.
Qed.

Lemma fields_after_scan (d : dict) :
  keys (List.filter (on_entry counts) (map_values standalone_masked d))
  = keys (List.filter (on_entry counts) d).
Proof.
  unfold map_values. induction d as [|[k v] d IH]; simpl; [reflexivity|].
  change (on_entry counts (k, on_entry standalone_masked (k, v)))
    with (counts k (standalone_masked k v)).
  change (on_entry counts (k, v)) with (counts k v).
  rewrite counts_standalone_masked.
  destruct (counts k v); simpl; rewrite IH; reflexivity.
Qed.

Lemma bind_ok {A B : Type} (m : M A) (k : A -> M B) (h h' : store)
    (a : A) :
  m h = (Ok a, h') -> bind m k h = k a h'.
Proof. intros H. unfold bind. rewrite H. reflexivity. Qed.

Lemma bind_raise {A B : Type} (m : M A) (k : A -> M B) (h h' : store)
    (e : exn) :
  m h = (Raise e, h') -> bind m k h = (Raise e, h').
Proof. intros H. unfold bind. rewrite H. reflexivity. Qed.

Lemma dict_copy_at (h : store) (data : ref) (d : dict) :
  h !! data = Some d -> dict_copy data h = (Ok (List.length h), h ++ [d]).
Proof. intros H. unfold dict_copy. rewrite H. reflexivity. Qed.

Lemma dict_items_at (h : store) (data : ref) (d : dict) :
  h !! data = Some d -> dict_items data h = (Ok d, h).
Proof. intros H. unfold dict_items, dict in *. rewrite H. reflexivity. Qed.

Lemma store_last (h : store) (d : dict) : (h ++ [d]) !! List.length h = Some d.
Proof. apply list_lookup_middle. reflexivity. Qed.

Lemma store_set_last (h : store) (d d' : dict) :
  <[List.length h := d']> (h ++ [d]) = h ++ [d'].
Proof.
  rewrite insert_app_r_alt by lia. rewrite Nat.sub_diag. reflexivity.
Qed.

(** [detect_pii] allocates one object, the copy, after the objects of the
    store, and writes to no other; the copy has the keys of the record, and
    holds [redacted] whenever the call returns. *)
Lemma detect_pii_store (h : store) (data : ref) (d : dict) :
  h !! data = Some d ->
  wf_record d ->
  exists cur,
    keys cur = keys d
    /\ detect_pii data h = (outcome d (List.length h), h ++ [cur])
    /\ (combinatorial d && negb (masks_defined d) = false ->
        cur = redacted d).
Proof.
  intros Hd Hwf.
  assert (Hd' : (h ++ [d]) !! data = Some d).
  { rewrite lookup_app_l; [exact Hd|]. eapply lookup_lt_Some, Hd. }
  pose proof (scan_items_runs (List.length h) d [] init_locals Hwf
                (h ++ [d]) (store_last h d)) as Hscan.
  rewrite store_set_last, scan_closed_form in Hscan. simpl in Hscan.
  unfold detect_pii.
  rewrite (bind_ok _ _ _ _ _ (dict_copy_at _ _ _ Hd)).
  rewrite (bind_ok _ _ _ _ _ (dict_items_at _ _ _ Hd')).
  rewrite (bind_ok _ _ _ _ _ Hscan).
  cbn [combinatorial_pii_count standalone_pii_found
       combinatorial_fields_found].
  unfold outcome, redacted.
  change (2 <=? List.length (List.filter (on_entry counts) d))%nat
    with (combinatorial d).
  change (existsb (on_entry fires) d) with (standalone_fired d).
  destruct (combinatorial d) eqn:Hcomb.
  - destruct (mask_fields_runs (List.length h)
                (map_values standalone_masked d) []) as (cur & Hk & Hrun & Hcur).
    { simpl. rewrite keys_map_values. exact Hwf. }
    rewrite fields_after_scan, masks_defined_after_scan in Hrun.
    rewrite masks_defined_after_scan in Hcur.
    specialize (Hrun (h ++ [map_values standalone_masked d]) (store_last _ _)).
    rewrite store_set_last in Hrun.
    exists cur. split; [rewrite Hk; simpl; apply keys_map_values|].
    destruct (masks_defined d); simpl.
    + rewrite (bind_ok _ _ _ _ _ Hrun).
      split; [reflexivity|]. intros _. apply Hcur. reflexivity.
    + rewrite (bind_raise _ _ _ _ _ Hrun).
      split; [reflexivity|discriminate].
  - exists (map_values standalone_masked d).
    split; [apply keys_map_values|].
    split; reflexivity.
Qed.

(** [run_detect_pii] in closed form. *)
Lemma run_detect_pii_eq (d : dict) :
  wf_record d ->
  run_detect_pii d
  = if combinatorial d && negb (masks_defined d) then Raise IndexError
    else Ok (standalone_fired d || combinatorial d, redacted d).
Proof.
  intros Hwf.
  destruct (detect_pii_store [d] 0 d eq_refl Hwf) as (cur & _ & Hrun & Hcur).
  unfold run_detect_pii, returned. rewrite Hrun. unfold outcome.
  destruct (combinatorial d && negb (masks_defined d)); [reflexivity|].
  simpl. rewrite Hcur; reflexivity.
Qed.

End DetectPii.

(** ** When the second loop raises *)

Section Undersized.

Lemma split_ws_from_words (s : string) :
  forall cur : option string,
    (forall w, cur = Some w -> w <> EmptyString) ->
    Forall (fun w => w <> EmptyString) (Str.split_ws_from cur s).
Proof.
  induction s as [|c s IH]; intros cur Hcur; simpl.
  - destruct cur as [w|]; [|constructor].
    constructor; [apply Hcur; reflexivity|constructor].
  - destruct (Str.is_space c).
    + destruct cur as [w|].
      * constructor; [apply Hcur; reflexivity|]. apply IH. discriminate.
      * apply IH. discriminate.
    + destruct cur as [w|]; apply IH; intros w' [= <-].
      * destruct w; discriminate.
      * discriminate.
Qed.

Lemma split_ws_words (s : string) :
  Forall (fun w => w <> EmptyString) (Str.split_ws s).
Proof. apply split_ws_from_words. discriminate. Qed.

Lemma char_at_nonempty (s : string) :
  s <> EmptyString -> exists a, char_at s 0 = Ok a.
Proof. destruct s as [|c s]; [congruence|]. intros _. eexists. reflexivity. Qed.

Lemma last_item_in {A : Type} (l : list A) :
  l <> [] -> exists a, last_item l = Ok a /\ a ∈ l.
Proof.
  unfold last_item. induction l as [|x l IH]; [congruence|]. intros _.
  destruct l as [|y l].
  - exists x. split; [reflexivity|left].
  - destruct IH as (a & Ha & Hin); [discriminate|].
    exists a. split; [exact Ha|right; exact Hin].
Qed.

(** [redact_name] returns on every name but the empty string. *)
Lemma redact_name_nonempty (s : string) :
  s <> EmptyString -> exists m, redact_name s = Ok m.
Proof.
  intros Hs. unfold redact_name. cbv zeta.
  pose proof (split_ws_words s) as Hw.
  destruct (2 <=? List.length (Str.split_ws s))%nat eqn:Hlen.
  - destruct (Str.split_ws s) as [|p ps] eqn:Hp; [discriminate|].
    destruct (last_item_in (p :: ps)) as (l & Hl & Hin); [discriminate|].
    rewrite Forall_forall in Hw.
    destruct (char_at_nonempty p) as [a Ha]; [apply Hw; left|].
    destruct (char_at_nonempty l) as [b Hb]; [apply Hw, Hin|].
    unfold item. simpl. rewrite Ha. simpl. rewrite Hl. simpl. rewrite Hb.
    eexists. reflexivity.
  - destruct (char_at_nonempty s Hs) as [a Ha]. rewrite Ha.
    eexists. reflexivity.
Qed.

Lemma mask_defined_undersized (key : string) (v : value) :
  mask_defined key v = negb (undersized key v).
Proof.
  unfold mask_defined, undersized. destruct v as [s| |]; try reflexivity.
  destruct (in_fields key combinatorial_pii_fields) eqn:Hf.
  - apply in_fields_cases in Hf.
    destruct Hf as [->|[->|[->|[->| ->]]]]; try reflexivity.
    + change (quasi_mask "name" s) with (redact_name s).
      cbn [String.eqb Ascii.eqb Bool.eqb andb orb].
      rewrite orb_false_r.
      destruct (String.eqb_spec s "") as [->|Hne]; [reflexivity|].
      destruct (redact_name_nonempty s Hne) as [m ->]. reflexivity.
    + change (quasi_mask "email" s) with (redact_email s).
      cbn [String.eqb Ascii.eqb Bool.eqb andb orb].
      destruct (Str.contains "@" s) eqn:Hc.
      * rewrite (redact_email_at s Hc). reflexivity.
      * rewrite (redact_email_no_at s Hc). reflexivity.
  - assert (String.eqb key "name" = false) as ->.
    { destruct (String.eqb_spec key "name") as [->|]; [discriminate|auto]. }
    assert (String.eqb key "email" = false) as ->.
    { destruct (String.eqb_spec key "email") as [->|]; [discriminate|auto]. }
    reflexivity.
Qed.

Lemma masks_defined_undersized (d : dict) :
  masks_defined d = negb (existsb (on_entry undersized) d).
Proof.
  unfold masks_defined. induction d as [|[k v] d IH]; simpl; [reflexivity|].
  rewrite IH, negb_orb. f_equal. apply mask_defined_undersized.
Qed.

(** [detect_pii] on a record: it raises [IndexError] on the records of
    [raises], and returns the flag and [redacted] on every other. *)
Lemma run_detect_pii_cases (d : dict) :
  wf_record d ->
  run_detect_pii d
  = if raises d then Raise IndexError
    else Ok (standalone_fired d || combinatorial d, redacted d).
Proof.
  intros Hwf. rewrite (run_detect_pii_eq d Hwf).
  unfold raises. rewrite masks_defined_undersized, negb_involutive.
  reflexivity.
Qed.

End Undersized.

(** ** The classification flag and the untouched records *)

Section Classification.

Lemma rule_key (key s : string) (f : redactor) :
  standalone_rule key s = Some f ->
  key = "phone" \/ key = "aadhar" \/ key = "passport" \/ key = "upi_id".
Proof.
  unfold standalone_rule.
  repeat match goal with
         | |- context [String.eqb key ?k] =>
             destruct (String.eqb_spec key k) as [->|?]; [tauto|]
         end.
  discriminate.
Qed.

Lemma quasi_count_le_present (d : dict) :
  quasi_count d <= quasi_keys_present d.
Proof.
  unfold quasi_count, quasi_keys_present.
  induction d as [|[k v] d IH]; simpl; [lia|].
  change (on_entry counts (k, v)) with (counts k v).
  destruct (counts k v) eqn:Hc.
  - destruct (counts_inv _ _ Hc) as (s & _ & ->). simpl. lia.
  - destruct (in_fields k combinatorial_pii_fields); simpl; lia.
Qed.

Lemma has_false_notin (k : string) (d : dict) :
  Dict.has k d = false -> k ∉ keys d.
Proof.
  unfold Dict.has. intros H. apply get_None_notin.
  destruct (Dict.get k d); [discriminate|reflexivity].
Qed.

Lemma entry_key_in (k : string) (v : value) (d : dict) :
  (k, v) ∈ d -> k ∈ keys d.
Proof. intros H. apply list_elem_of_fmap. exists (k, v). auto. Qed.

Lemma map_values_id (f : string -> value -> value) (d : dict) :
  (forall k v, (k, v) ∈ d -> f k v = v) -> map_values f d = d.
Proof.
  unfold map_values. induction d as [|[k v] d IH]; intros H; simpl.
  - reflexivity.
  - unfold on_entry at 1. simpl. rewrite (H k v) by left.
    f_equal. apply IH. intros k' v' Hin. apply H. right. exact Hin.
Qed.

Lemma not_fired_entry (d : dict) (k : string) (v : value) :
  standalone_fired d = false -> (k, v) ∈ d -> fires k v = false.
Proof.
  unfold standalone_fired. induction d as [|[k' v'] d IH]; simpl; intros H Hin.
  - inversion Hin.
  - apply orb_false_iff in H as [H1 H2].
    apply elem_of_cons in Hin as [[= -> ->]|Hin]; [exact H1|auto].
Qed.

Lemma not_fires_unmasked (k : string) (v : value) :
  fires k v = false -> standalone_masked k v = v.
Proof.
  unfold fires, standalone_masked. destruct v as [s| |]; try reflexivity.
  destruct (standalone_rule k s); [discriminate|reflexivity].
Qed.

Lemma fired_has_key (d : dict) :
  standalone_fired d = true ->
  exists k, k ∈ keys d
            /\ (k = "phone" \/ k = "aadhar" \/ k = "passport" \/ k = "upi_id").
Proof.
  unfold standalone_fired. induction d as [|[k v] d IH]; simpl; [discriminate|].
  intros H. apply orb_true_iff in H as [H|H].
  - exists k. split; [left|].
    unfold on_entry, fires in H. simpl in H. destruct v as [s| |]; try discriminate.
    destruct (standalone_rule k s) as [f|] eqn:E; [|discriminate].
    eapply rule_key, E.
  - destruct (IH H) as (k' & Hin & Hk'). exists k'. split; [right|]; assumption.
Qed.

Lemma wf_record_decide (d : dict) :
  bool_decide (wf_record d) = true -> wf_record d.
Proof. apply bool_decide_eq_true_1. Qed.

End Classification.

(** ** The claims *)

(** C1, as stated, fails: a record whose two combinatorial keys hold a
    number and null has two such keys present, no standalone rule fires on
    it, and [detect_pii] returns [isPII = false]. *)
Lemma C1_counterexample :
  quasi_keys_present [("name", VNum 1); ("email", VNull)] = 2
  /\ standalone_fired [("name", VNum 1); ("email", VNull)] = false
  /\ run_detect_pii [("name", VNum 1); ("email", VNull)]
     = Ok (false, [("name", VNum 1); ("email", VNull)]).
Proof. repeat split. Qed.

(** C1, amended: on every record on which the masking step does not fail
    (no empty [name], no [email] without [@], when two combinatorial
    fields are counted), [detect_pii] returns [isPII = true] exactly when
    a standalone rule fired or at least two keys of the combinatorial
    field list are present with string values. *)
Theorem C1_is_pii_flag (d : dict) :
  wf_record d ->
  raises d = false ->
  exists r,
    run_detect_pii d
    = Ok (standalone_fired d || (2 <=? quasi_count d)%nat, r).
Proof.
  intros Hwf Hr. exists (redacted d).
  rewrite (run_detect_pii_cases d Hwf), Hr. reflexivity.
Qed.

Lemma C1_is_pii_flag_witness :
  wf_record [("name", VStr "John Doe"); ("email", VStr "john@x.com")]
  /\ raises [("name", VStr "John Doe"); ("email", VStr "john@x.com")] = false
  /\ exists r,
       run_detect_pii [("name", VStr "John Doe"); ("email", VStr "john@x.com")]
       = Ok (true, r).
Proof.
  split; [apply wf_record_decide; reflexivity|].
  split; [reflexivity|].
  apply (C1_is_pii_flag [("name", VStr "John Doe"); ("email", VStr "john@x.com")]).
  - apply wf_record_decide. reflexivity.
  - reflexivity.
Defined.

(** C2: [detect_pii] is not total as the claim requires. [redact_name]
    indexes the first character of an empty name and [redact_email] the
    second part of an email without [@]; on a record with two combinatorial
    fields either makes [detect_pii] raise [IndexError]. *)
Theorem C2_detect_pii_raises :
  redact_name "" = Raise IndexError
  /\ redact_email "nobody" = Raise IndexError
  /\ run_detect_pii [("name", VStr ""); ("email", VStr "a@b.c")]
     = Raise IndexError
  /\ run_detect_pii [("name", VStr "John"); ("email", VStr "nobody")]
     = Raise IndexError.
Proof. repeat split. Qed.

(** The records [detect_pii] fails on are exactly those of [raises]; on
    every other well-formed record it returns. *)
Lemma detect_pii_returns_iff (d : dict) :
  wf_record d ->
  (exists res, run_detect_pii d = Ok res) <-> raises d = false.
Proof.
  intros Hwf. rewrite (run_detect_pii_cases d Hwf).
  destruct (raises d); split.
  - intros [res H]. discriminate.
  - discriminate.
  - reflexivity.
  - intros _. eexists. reflexivity.
Qed.

(** C3, as stated, fails: on the record [{"upi_id": "johndoe@upi"}]
    [detect_pii] does not return [isPII = true] with [upi_id] mapped to
    ["joXXX@upi"]. *)
Lemma C3_counterexample :
  ~ exists r,
      run_detect_pii [("upi_id", VStr "johndoe@upi")] = Ok (true, r)
      /\ Dict.get "upi_id" r = Some (VStr "joXXX@upi").
Proof. intros (r & H & _). discriminate H. Qed.

(** C3, amended: the value ["johndoe@upi"] matches neither alternative of
    the UPI pattern (its domain has no dotted suffix, its local part is not
    ten digits), so [detect_pii] returns [isPII = false] and the record
    unchanged; the handle ["johndoe@upi.com"] is flagged and masked to
    ["joXXX@upi.com"]. *)
Theorem C3_upi_scenario :
  search upi_pattern "johndoe@upi" = false
  /\ run_detect_pii [("upi_id", VStr "johndoe@upi")]
     = Ok (false, [("upi_id", VStr "johndoe@upi")])
  /\ run_detect_pii [("upi_id", VStr "johndoe@upi.com")]
     = Ok (true, [("upi_id", VStr "joXXX@upi.com")]).
Proof. repeat split. Qed.

(** C4, as stated, fails: on a value with two [@] both redactors drop
    what follows the second [@]; the claim has everything after the first
    [@] kept. *)
Lemma C4_counterexample :
  Str.contains "@" "a@b@c" = true
  /\ Str.take 2 (Str.before "@" "a@b@c") +:+ "XXX@" +:+ Str.after "@" "a@b@c"
     = "aXXX@b@c"
  /\ redact_upi "a@b@c" = Ok "aXXX@b"
  /\ redact_email "a@b@c" = Ok "aXXX@b".
Proof. repeat split. Qed.

(** C4, amended: for a value that contains [@], [redact_upi] and
    [redact_email] return the first two characters of the part before the
    first [@], then ["XXX@"], then the part between the first [@] and the
    next one; that part is all that follows the first [@] when the value
    has a single [@]. *)
Theorem C4_redact_at (s : string) :
  Str.contains "@" s = true ->
  redact_upi s
  = Ok (Str.take 2 (Str.before "@" s) +:+ "XXX@"
        +:+ Str.before "@" (Str.after "@" s))
  /\ redact_email s
     = Ok (Str.take 2 (Str.before "@" s) +:+ "XXX@"
           +:+ Str.before "@" (Str.after "@" s))
  /\ (Str.contains "@" (Str.after "@" s) = false ->
      Str.before "@" (Str.after "@" s) = Str.after "@" s).
Proof.
  intros H. split; [apply redact_upi_at, H|].
  split; [apply redact_email_at, H|]. apply before_no_sep.
Qed.

Lemma C4_redact_at_witness :
  Str.contains "@" "john@x.com" = true
  /\ redact_upi "john@x.com" = Ok "joXXX@x.com"
  /\ redact_email "john@x.com" = Ok "joXXX@x.com".
Proof.
  split; [reflexivity|].
  destruct (C4_redact_at "john@x.com" eq_refl) as (Hu & He & _).
  split; [exact Hu|exact He].
Defined.

(** C5: a record with none of the keys [phone], [aadhar], [passport],
    [upi_id] and fewer than two keys of the combinatorial field list is
    returned unchanged with [isPII = false]. *)
Theorem C5_no_rule_unchanged (d : dict) :
  wf_record d ->
  Dict.has "phone" d = false ->
  Dict.has "aadhar" d = false ->
  Dict.has "passport" d = false ->
  Dict.has "upi_id" d = false ->
  quasi_keys_present d < 2 ->
  run_detect_pii d = Ok (false, d).
Proof.
  intros Hwf Hp Ha Hs Hu Hq.
  assert (Hnf : standalone_fired d = false).
  { destruct (standalone_fired d) eqn:E; [|reflexivity].
    destruct (fired_has_key d E) as (k & Hin & [->|[->|[->| ->]]]);
      exfalso;
      [ apply (has_false_notin _ _ Hp) | apply (has_false_notin _ _ Ha)
      | apply (has_false_notin _ _ Hs) | apply (has_false_notin _ _ Hu) ];
      exact Hin. }
  assert (Hnc : combinatorial d = false).
  { unfold combinatorial. apply Nat.leb_gt.
    pose proof (quasi_count_le_present d). lia. }
  assert (Hnr : raises d = false).
  { unfold raises. rewrite Hnc. reflexivity. }
  rewrite (run_detect_pii_cases d Hwf), Hnr, Hnf, Hnc. simpl.
  unfold redacted. rewrite Hnc. f_equal. f_equal.
  apply map_values_id. intros k v Hin.
  apply not_fires_unmasked. eapply not_fired_entry; eassumption.
Qed.

Lemma C5_no_rule_unchanged_witness :
  run_detect_pii [("city", VStr "Pune"); ("name", VStr "John")]
  = Ok (false, [("city", VStr "Pune"); ("name", VStr "John")]).
Proof.
  apply (C5_no_rule_unchanged [("city", VStr "Pune"); ("name", VStr "John")]).
  - apply wf_record_decide. reflexivity.
  - reflexivity.
  - reflexivity.
  - reflexivity.
  - reflexivity.
  - vm_compute. lia.
Defined.

(** ** The phone rule *)

Section PhoneRule.

(** A string of exactly ten digits is matched by the phone pattern. *)
Lemma ten_digits_match (s : string) :
  String.length s = 10 -> Str.all Str.is_digit s = true ->
  search phone_pattern s = true.
Proof.
  intros Hlen Hall.
  do 10 (destruct s as [|? s]; [discriminate Hlen|]).
  destruct s; [|discriminate Hlen].
  simpl in Hall.
  repeat match type of Hall with
         | _ && _ = true => apply andb_true_iff in Hall as [? Hall]
         end.
  unfold search, search_from, phone_pattern. simpl.
  unfold at_boundary. simpl.
  repeat match goal with
         | H : Str.is_digit ?c = true |- _ =>
             rewrite ?H, ?(digit_is_word c H); clear H
         end.
  reflexivity.
Qed.

Lemma redact_phone_ten (s : string) :
  String.length s = 10 ->
  redact_phone s = substring 0 2 s +:+ "XXXXXX" +:+ substring 8 2 s.
Proof.
  intros Hlen.
  do 10 (destruct s as [|? s]; [discriminate Hlen|]).
  destruct s; [|discriminate Hlen]. reflexivity.
Qed.

Lemma fired_entry (d : dict) (k : string) (v : value) :
  (k, v) ∈ d -> fires k v = true -> standalone_fired d = true.
Proof.
  unfold standalone_fired. intros Hin Hf. apply existsb_exists.
  exists (k, v). split; [apply list_elem_of_In, Hin|exact Hf].
Qed.

Lemma get_redacted (d : dict) (k : string) :
  Dict.get k (redacted d)
  = option_map
      (fun v => if combinatorial d
                then quasi_masked k (standalone_masked k v)
                else standalone_masked k v)
      (Dict.get k d).
Proof.
  unfold redacted. destruct (combinatorial d); rewrite !get_map_values.
  - destruct (Dict.get k d); reflexivity.
  - reflexivity.
Qed.

(** Outside the records [detect_pii] fails on, a ten-digit [phone] makes
    it return [isPII = true] with the phone masked to its first two
    digits, ["XXXXXX"] and its last two digits. *)
Lemma phone_rule_masks (d : dict) (s : string) :
  wf_record d ->
  Dict.get "phone" d = Some (VStr s) ->
  String.length s = 10 ->
  Str.all Str.is_digit s = true ->
  raises d = false ->
  exists r,
    run_detect_pii d = Ok (true, r)
    /\ Dict.get "phone" r
       = Some (VStr (substring 0 2 s +:+ "XXXXXX" +:+ substring 8 2 s)).
Proof.
  intros Hwf Hget Hlen Hdig Hr.
  pose proof (ten_digits_match s Hlen Hdig) as Hm.
  assert (Hrule : standalone_rule "phone" s = Some RedactPhone).
  { unfold standalone_rule. rewrite Hm. reflexivity. }
  assert (Hf : standalone_fired d = true).
  { apply (fired_entry d "phone" (VStr s)); [apply get_Some_in, Hget|].
    unfold fires. rewrite Hrule. reflexivity. }
  exists (redacted d). rewrite (run_detect_pii_cases d Hwf), Hr, Hf.
  split; [reflexivity|].
  rewrite get_redacted, Hget. simpl.
  unfold standalone_masked. rewrite Hrule. simpl.
  rewrite (redact_phone_ten s Hlen).
  destruct (combinatorial d); reflexivity.
Qed.

End PhoneRule.

(** C6: the phone rule itself does what the claim says ([phone_rule_masks]),
    but a record with a ten-digit [phone] is not always classified: with an
    empty [name] next to an [email], [detect_pii] raises [IndexError]
    instead of returning [isPII = true]. *)
Theorem C6_phone_record_raises :
  String.length "9876543210" = 10
  /\ Str.all Str.is_digit "9876543210" = true
  /\ run_detect_pii
       [("phone", VStr "9876543210"); ("name", VStr ""); ("email", VStr "a@b.c")]
     = Raise IndexError.
Proof. repeat split. Qed.

(** ** Independence of the store and of the order of the entries *)

Section Order.

(** The outcome of a call depends on the record alone, not on the store
    the record lives in. *)
Lemma returned_detect_pii (h : store) (data : ref) (d : dict) :
  h !! data = Some d -> wf_record d ->
  returned (detect_pii data h) = run_detect_pii d.
Proof.
  intros Hd Hwf. rewrite (run_detect_pii_eq d Hwf).
  destruct (detect_pii_store h data d Hd Hwf) as (cur & _ & Hrun & Hcur).
  unfold returned. rewrite Hrun. unfold outcome.
  destruct (combinatorial d && negb (masks_defined d)); [reflexivity|].
  rewrite store_last, Hcur; reflexivity.
Qed.

Lemma existsb_perm {A : Type} (p : A -> bool) (l1 l2 : list A) :
  Permutation l1 l2 -> existsb p l1 = existsb p l2.
Proof.
  induction 1 as [|x l1 l2 _ IH|x y l|l1 l2 l3 _ IH1 _ IH2]; simpl.
  - reflexivity.
  - rewrite IH. reflexivity.
  - rewrite !orb_assoc, (orb_comm (p y)). reflexivity.
  - congruence.
Qed.

Lemma count_perm {A : Type} (p : A -> bool) (l1 l2 : list A) :
  Permutation l1 l2 ->
  List.length (List.filter p l1) = List.length (List.filter p l2).
Proof.
  induction 1 as [|x l1 l2 _ IH|x y l|l1 l2 l3 _ IH1 _ IH2]; simpl.
  - reflexivity.
  - destruct (p x); simpl; rewrite IH; reflexivity.
  - destruct (p x), (p y); reflexivity.
  - congruence.
Qed.

Lemma wf_perm (d1 d2 : dict) :
  Permutation d1 d2 -> wf_record d1 -> wf_record d2.
Proof.
  unfold wf_record, keys. intros Hp Hwf.
  rewrite <- (Permutation_map fst Hp). exact Hwf.
Qed.

Lemma get_perm (d1 d2 : dict) (k : string) :
  Permutation d1 d2 -> wf_record d1 -> Dict.get k d1 = Dict.get k d2.
Proof.
  intros Hp Hwf. pose proof (wf_perm _ _ Hp Hwf) as Hwf2.
  destruct (Dict.get k d1) as [v|] eqn:E.
  - symmetry. apply in_get_Some; [exact Hwf2|].
    rewrite <- Hp. apply get_Some_in, E.
  - symmetry. apply get_None_notin. apply get_None_notin in E.
    intros Hin. apply E. unfold keys in *. rewrite Hp. exact Hin.
Qed.

Lemma classification_perm (d1 d2 : dict) :
  Permutation d1 d2 ->
  standalone_fired d1 = standalone_fired d2
  /\ combinatorial d1 = combinatorial d2
  /\ raises d1 = raises d2.
Proof.
  intros Hp.
  assert (Hc : combinatorial d1 = combinatorial d2).
  { unfold combinatorial, quasi_count. rewrite (count_perm _ _ _ Hp).
    reflexivity. }
  split; [apply existsb_perm, Hp|]. split; [exact Hc|].
  unfold raises. rewrite Hc, (existsb_perm _ _ _ Hp). reflexivity.
Qed.

Lemma run_detect_pii_perm (d1 d2 : dict) :
  wf_record d1 -> Permutation d1 d2 ->
  same_result (run_detect_pii d1) (run_detect_pii d2).
Proof.
  intros Hwf Hp. pose proof (wf_perm _ _ Hp Hwf) as Hwf2.
  destruct (classification_perm _ _ Hp) as (Hf & Hc & Hr).
  rewrite (run_detect_pii_cases d1 Hwf), (run_detect_pii_cases d2 Hwf2).
  rewrite Hr, Hf, Hc. destruct (raises d2); simpl; [reflexivity|].
  split; [reflexivity|]. intros k.
  rewrite !get_redacted, Hc, (get_perm _ _ k Hp Hwf). reflexivity.
Qed.

End Order.

(** C7: the outcome of [detect_pii] is a function of the record alone.
    Called on two stores that hold the same entries, in any two orders, it
    raises the same exception or returns the same flag and the same mapping
    from keys to values; in particular two calls on one record agree. *)
Theorem C7_pure_and_order_independent (h1 h2 : store) (data1 data2 : ref)
    (d1 d2 : dict) :
  h1 !! data1 = Some d1 ->
  h2 !! data2 = Some d2 ->
  wf_record d1 ->
  Permutation d1 d2 ->
  same_result (returned (detect_pii data1 h1)) (returned (detect_pii data2 h2)).
Proof.
  intros H1 H2 Hwf Hp.
  rewrite (returned_detect_pii h1 data1 d1 H1 Hwf).
  rewrite (returned_detect_pii h2 data2 d2 H2 (wf_perm _ _ Hp Hwf)).
  apply run_detect_pii_perm; assumption.
Qed.

Lemma C7_pure_and_order_independent_witness :
  same_result
    (returned (detect_pii 0
       [[("phone", VStr "9876543210"); ("name", VStr "John")]]))
    (returned (detect_pii 1
       [[]; [("name", VStr "John"); ("phone", VStr "9876543210")]])).
Proof.
  apply (C7_pure_and_order_independent
           [[("phone", VStr "9876543210"); ("name", VStr "John")]]
           [[]; [("name", VStr "John"); ("phone", VStr "9876543210")]]
           0 1
           [("phone", VStr "9876543210"); ("name", VStr "John")]
           [("name", VStr "John"); ("phone", VStr "9876543210")]).
  - reflexivity.
  - reflexivity.
  - apply wf_record_decide. reflexivity.
  - apply perm_swap.
Defined.

(** ** The frame of the redaction *)

Section Frame.

Lemma masks_defined_entry (d : dict) (k : string) (v : value) :
  masks_defined d = true -> (k, v) ∈ d -> mask_defined k v = true.
Proof.
  unfold masks_defined. rewrite forallb_forall. intros H Hin.
  apply (H (k, v)). apply list_elem_of_In, Hin.
Qed.

Lemma returns_inv (d : dict) (flag : bool) (r : dict) :
  wf_record d ->
  run_detect_pii d = Ok (flag, r) ->
  raises d = false
  /\ flag = standalone_fired d || combinatorial d
  /\ r = redacted d.
Proof.
  intros Hwf. rewrite (run_detect_pii_cases d Hwf).
  destruct (raises d); [discriminate|]. intros [= <- <-]. auto.
Qed.

Lemma keys_redacted (d : dict) : keys (redacted d) = keys d.
Proof.
  unfold redacted. destruct (combinatorial d); rewrite !keys_map_values;
    reflexivity.
Qed.

End Frame.

(** C8, as stated, fails in its second part: with exactly two keys of the
    combinatorial list present, one of them mapped to null, and no
    standalone rule fired, no key is masked. *)
Lemma C8_counterexample :
  quasi_keys_present
    [("name", VStr "John"); ("email", VNull); ("city", VStr "Pune")] = 2
  /\ standalone_fired
       [("name", VStr "John"); ("email", VNull); ("city", VStr "Pune")] = false
  /\ run_detect_pii
       [("name", VStr "John"); ("email", VNull); ("city", VStr "Pune")]
     = Ok (false,
           [("name", VStr "John"); ("email", VNull); ("city", VStr "Pune")]).
Proof. repeat split. Qed.

(** C8, amended: in the record [detect_pii] returns, the keys are those of
    the input, and every field on which no standalone rule fired and which
    the combinatorial masking did not replace (it replaces the string-valued
    fields of the combinatorial list, when at least two are counted) has the
    value of the input. When exactly two such string-valued fields are
    present and no standalone rule fired, the flag is true, those two
    fields hold their masks and every other field its input value. *)
Theorem C8_frame (d : dict) (flag : bool) (r : dict) :
  wf_record d ->
  run_detect_pii d = Ok (flag, r) ->
  keys r = keys d
  /\ (forall k v,
        Dict.get k d = Some v ->
        fires k v = false ->
        combinatorial d && counts k v = false ->
        Dict.get k r = Some v)
  /\ (quasi_count d = 2 ->
      standalone_fired d = false ->
      flag = true
      /\ forall k v,
           Dict.get k d = Some v ->
           if counts k v
           then exists s m,
                  v = VStr s /\ quasi_mask k s = Ok m
                  /\ Dict.get k r = Some (VStr m)
           else Dict.get k r = Some v).
Proof.
  intros Hwf Hrun.
  destruct (returns_inv d flag r Hwf Hrun) as (Hr & -> & ->).
  split; [apply keys_redacted|]. split.
  - intros k v Hget Hf Hc. rewrite get_redacted, Hget. simpl.
    rewrite (not_fires_unmasked _ _ Hf).
    destruct (combinatorial d); [|reflexivity].
    simpl in Hc. destruct (not_counts_untouched _ _ Hc) as [-> _].
    reflexivity.
  - intros Hq Hnf.
    assert (Hcomb : combinatorial d = true).
    { unfold combinatorial. rewrite Hq. reflexivity. }
    split; [rewrite Hcomb; apply orb_true_r|].
    intros k v Hget. pose proof (get_Some_in _ _ _ Hget) as Hin.
    rewrite get_redacted, Hget, Hcomb. simpl.
    rewrite (not_fires_unmasked _ _ (not_fired_entry _ _ _ Hnf Hin)).
    destruct (counts k v) eqn:Hc.
    + destruct (counts_inv _ _ Hc) as (s & -> & Hfld).
      assert (Hmd : mask_defined k (VStr s) = true).
      { apply (masks_defined_entry d); [|exact Hin].
        unfold raises in Hr. rewrite Hcomb in Hr. simpl in Hr.
        rewrite masks_defined_undersized, Hr. reflexivity. }
      rewrite (mask_defined_str _ _ Hfld) in Hmd.
      rewrite (quasi_masked_str _ _ Hfld).
      destruct (quasi_mask k s) as [m|e] eqn:Hm; [|discriminate].
      exists s, m. auto.
    + destruct (not_counts_untouched _ _ Hc) as [-> _]. reflexivity.
Qed.

Lemma C8_frame_witness :
  Dict.get "city"
    [("name", VStr "JXXX DXXX"); ("email", VStr "joXXX@x.com");
     ("city", VStr "Pune")] = Some (VStr "Pune").
Proof.
  destruct (C8_frame
              [("name", VStr "John Doe"); ("email", VStr "john@x.com");
               ("city", VStr "Pune")]
              true
              [("name", VStr "JXXX DXXX"); ("email", VStr "joXXX@x.com");
               ("city", VStr "Pune")])
    as (_ & Hframe & _).
  - apply wf_record_decide. reflexivity.
  - reflexivity.
  - apply (Hframe "city" (VStr "Pune")); reflexivity.
Defined.

(** C9: the first loop calls [redact_upi] only in the branch whose key is
    [upi_id] and whose value the UPI pattern matches; such a value holds an
    [@], so [redact_upi] takes its first branch and never returns through
    the fall-back ["XXX@XXX"]. *)
Theorem C9_redact_upi_argument (key value : string) :
  standalone_rule key value = Some RedactUpi ->
  key = "upi_id"
  /\ search upi_pattern value = true
  /\ Str.contains "@" value = true
  /\ call_redactor RedactUpi value
     = Ok (Str.take 2 (Str.before "@" value) +:+ "XXX@"
           +:+ Str.before "@" (Str.after "@" value)).
Proof.
  unfold standalone_rule.
  destruct (String.eqb key "phone" && search phone_pattern value);
    [discriminate|].
  destruct (String.eqb key "aadhar" && search aadhar_pattern value);
    [discriminate|].
  destruct (String.eqb key "passport" && search passport_pattern value);
    [discriminate|].
  destruct (String.eqb key "upi_id" && search upi_pattern value) eqn:E;
    [|discriminate].
  intros _. apply andb_true_iff in E as [Hk Hm].
  apply String.eqb_eq in Hk. pose proof (upi_match_has_at value Hm) as Hat.
  repeat split; try assumption. apply redact_upi_at, Hat.
Qed.

Lemma C9_redact_upi_argument_witness :
  Str.contains "@" "9876543210@upi" = true
  /\ call_redactor RedactUpi "9876543210@upi" = Ok "98XXX@upi".
Proof.
  destruct (C9_redact_upi_argument "upi_id" "9876543210@upi" eq_refl)
    as (_ & _ & Hat & Hcall).
  split; [exact Hat|exact Hcall].
Defined.

(** C10: [detect_pii] writes to the copy alone. After the call, whether it
    returned or raised, every object the store held, the input record among
    them, is what it was; the reference returned is not that of the input,
    and the dictionary it points to has the keys of the input, none added
    and none removed. *)
Theorem C10_input_untouched_same_keys (h : store) (data : ref) (d : dict) :
  h !! data = Some d ->
  wf_record d ->
  let '(res, h') := detect_pii data h in
  h' !! data = Some d
  /\ (forall l o, h !! l = Some o -> h' !! l = Some o)
  /\ forall flag r,
       res = Ok (flag, r) ->
       r <> data
       /\ exists redacted_data,
            h' !! r = Some redacted_data /\ keys redacted_data = keys d.
Proof.
  intros Hd Hwf.
  destruct (detect_pii_store h data d Hd Hwf) as (cur & Hkeys & Hrun & _).
  rewrite Hrun.
  assert (Hold : forall l o, h !! l = Some o -> (h ++ [cur]) !! l = Some o).
  { intros l o Hl. rewrite lookup_app_l; [exact Hl|].
    eapply lookup_lt_Some, Hl. }
  split; [apply Hold, Hd|]. split; [exact Hold|].
  intros flag r Hres. unfold outcome in Hres.
  destruct (combinatorial d && negb (masks_defined d)); [discriminate|].
  injection Hres as _ <-. split.
  - apply lookup_lt_Some in Hd. lia.
  - exists cur. split; [apply store_last|exact Hkeys].
Qed.

Lemma C10_input_untouched_same_keys_witness :
  let '(res, h') :=
    detect_pii 0 [[("name", VStr "John Doe"); ("email", VStr "john@x.com")]] in
  h' !! 0 = Some [("name", VStr "John Doe"); ("email", VStr "john@x.com")]
  /\ (forall l o,
        [[("name", VStr "John Doe"); ("email", VStr "john@x.com")]] !! l
        = Some o -> h' !! l = Some o)
  /\ forall flag r,
       res = Ok (flag, r) ->
       r <> 0
       /\ exists redacted_data,
            h' !! r = Some redacted_data
            /\ keys redacted_data
               = keys [("name", VStr "John Doe"); ("email", VStr "john@x.com")].
Proof.
  apply (C10_input_untouched_same_keys
           [[("name", VStr "John Doe"); ("email", VStr "john@x.com")]] 0
           [("name", VStr "John Doe"); ("email", VStr "john@x.com")]).
  - reflexivity.
  - apply wf_record_decide. reflexivity.
Defined.

(** * Further properties of the code *)

(** ** The redactors on short and unusual values *)

Section RedactorEdges.

(** [redact_name] (lines 77-81) raises [IndexError] on the empty string
    and on no other name. *)
Theorem redact_name_raises_iff_empty (s : string) :
  match redact_name s with
  | Ok _ => s <> EmptyString
  | Raise e => e = IndexError /\ s = EmptyString
  end.
Proof.
  destruct s as [|c s].
  - split; reflexivity.
  - destruct (redact_name_nonempty (String c s)) as [m ->]; discriminate.
Qed.

(** [redact_email] (lines 83-85) raises [IndexError] exactly on the values
    without [@]. *)
Theorem redact_email_raises_iff_no_at (s : string) :
  match redact_email s with
  | Ok _ => Str.contains "@" s = true
  | Raise e => e = IndexError /\ Str.contains "@" s = false
  end.
Proof.
  destruct (Str.contains "@" s) eqn:H.
  - rewrite (redact_email_at s H). reflexivity.
  - rewrite (redact_email_no_at s H). split; reflexivity.
Qed.


End RedactorEdges.

(** ** Masking a mask *)

Section Idempotence.

Lemma count_if_app (p : ascii -> bool) (a b : string) :
  count_if p (a +:+ b) = count_if p a + count_if p b.
Proof.
  induction a as [|x a IH]; [reflexivity|].
  rewrite app_cons. simpl. rewrite IH. lia.
Qed.

Lemma count_if_none (c : ascii) (s : string) :
  Str.contains c s = false -> count_if (fun x => Ascii.eqb x c) s = 0.
Proof.
  induction s as [|x s IH]; simpl; [reflexivity|].
  destruct (Ascii.eqb x c); simpl; [discriminate|exact IH].
Qed.

Lemma contains_take (c : ascii) (n : nat) (s : string) :
  Str.contains c s = false -> Str.contains c (Str.take n s) = false.
Proof.
  revert n. induction s as [|x s IH]; intros [|n]; simpl; try reflexivity.
  destruct (Ascii.eqb x c); simpl; [discriminate|apply IH].
Qed.



Lemma length_take (n : nat) (s : string) :
  String.length (Str.take n s) = Nat.min n (String.length s).
Proof.
  revert n. induction s as [|x s IH]; intros [|n]; simpl; try reflexivity.
  rewrite IH. reflexivity.
Qed.


Lemma first_chars_kept (words : list string) :
  Forall (fun w => exists c rest, w = String c rest
                                  /\ Str.is_space c = false) words ->
  forall w, w ∈ words ->
    exists c, char_at w 0 = Ok (String c EmptyString)
              /\ Str.is_space c = false.
Proof.
  rewrite Forall_forall. intros H w Hin.
  destruct (H w Hin) as (c & rest & -> & Hc). exists c. auto.
Qed.

Lemma split_ws_from_heads (s : string) :
  forall cur : option string,
    (forall w, cur = Some w ->
       exists c rest, w = String c rest /\ Str.is_space c = false) ->
    Forall (fun w => exists c rest, w = String c rest
                                    /\ Str.is_space c = false)
           (Str.split_ws_from cur s).
Proof.
  induction s as [|c s IH]; intros cur Hcur; simpl.
  - destruct cur as [w|]; [|constructor].
    constructor; [apply Hcur; reflexivity|constructor].
  - destruct (Str.is_space c) eqn:Hc.
    + destruct cur as [w|].
      * constructor; [apply Hcur; reflexivity|]. apply IH. discriminate.
      * apply IH. discriminate.
    + destruct cur as [w|]; apply IH; intros w' [= <-].
      * destruct (Hcur w eq_refl) as (c0 & rest & -> & Hc0).
        exists c0, (rest +:+ String c EmptyString). auto.
      * exists c, EmptyString. auto.
Qed.

(** The two shapes of a name mask. *)
Lemma redact_name_shape (s m : string) :
  redact_name s = Ok m ->
  (exists c1 c2,
     Str.is_space c1 = false /\ Str.is_space c2 = false
     /\ m = String c1 ("XXX " +:+ String c2 "XXX"))
  \/ (exists c, m = String c "XXX").
Proof.
  unfold redact_name. cbv zeta.
  pose proof (split_ws_from_heads s None) as Hw.
  fold (Str.split_ws s) in Hw.
  destruct (2 <=? List.length (Str.split_ws s))%nat.
  - destruct (Str.split_ws s) as [|p ps] eqn:Hp.
    + discriminate.
    + assert (Hheads := first_chars_kept (p :: ps) (Hw ltac:(discriminate))).
      destruct (Hheads p ltac:(left)) as (c1 & Hc1 & Hs1).
      destruct (last_item_in (p :: ps) ltac:(discriminate)) as (l & Hl & Hin).
      destruct (Hheads l Hin) as (c2 & Hc2 & Hs2).
      unfold item. simpl. rewrite Hc1. simpl. rewrite Hl. simpl. rewrite Hc2.
      simpl. intros [= <-]. left. exists c1, c2. auto.
  - destruct s as [|c s]; [discriminate|]. simpl.
    intros [= <-]. right. exists c. reflexivity.
Qed.

(** [redact_name] (lines 77-81) maps its own masks to themselves. *)
Theorem redact_name_idempotent (s m : string) :
  redact_name s = Ok m -> redact_name m = Ok m.
Proof.
  intros H. destruct (redact_name_shape s m H)
    as [(c1 & c2 & H1 & H2 & ->)|(c & ->)].
  - unfold redact_name, Str.split_ws. simpl. rewrite H1. simpl.
    rewrite H2. reflexivity.
  - unfold redact_name, Str.split_ws. simpl.
    destruct (Str.is_space c); reflexivity.
Qed.

Lemma redact_name_idempotent_witness :
  redact_name "JXXX DXXX" = Ok "JXXX DXXX".
Proof. apply (redact_name_idempotent "John Ronald Doe"). reflexivity. Defined.

End Idempotence.

Section AtMasks.

Lemma length_app_str (a b : string) :
  String.length (a +:+ b) = String.length a + String.length b.
Proof.
  induction a as [|x a IH]; [reflexivity|].
  rewrite app_cons. simpl. rewrite IH. reflexivity.
Qed.


(** [redact_upi] (lines 71-75) returns on every value, and its mask holds
    exactly one [@]: the fall-back ["XXX@XXX"] when the value has none, and
    otherwise a local part and a domain cut at the first and the second
    [@] of the value. *)
Theorem redact_upi_total_one_at (s : string) :
  exists m,
    redact_upi s = Ok m
    /\ count_if is_at m = 1
    /\ (Str.contains "@" s = false -> m = "XXX@XXX").
Proof.
  destruct (Str.contains "@" s) eqn:H.
  - eexists. split; [apply redact_upi_at, H|]. split; [|discriminate].
    rewrite !count_if_app.
    change is_at with (fun x => Ascii.eqb x "@").
    rewrite (count_if_none "@" (Str.take 2 (Str.before "@" s)))
      by apply contains_take, before_lacks_sep.
    rewrite (count_if_none "@" (Str.before "@" (Str.after "@" s)))
      by apply before_lacks_sep.
    reflexivity.
  - exists "XXX@XXX". unfold redact_upi. rewrite H. repeat split.
Qed.



End AtMasks.

(** ** The digit patterns *)

Section DigitPatterns.

Lemma last_char_app (prev : option ascii) (a b : string) :
  last_char prev (a +:+ b) = last_char (last_char prev a) b.
Proof.
  revert prev. induction a as [|x a IH]; intros prev; [reflexivity|].
  rewrite app_cons. simpl. apply IH.
Qed.

(** A search succeeds exactly when the pattern matches at some position. *)
Lemma search_from_iff (r : regex) (s : string) :
  forall prev,
    search_from r prev s = true
    <-> exists pre suf,
          s = pre +:+ suf /\ rmatch r (last_char prev pre) suf accept = true.
Proof.
  induction s as [|x s IH]; intros prev; simpl.
  - rewrite orb_false_r. split.
    + intros H. exists EmptyString, EmptyString. auto.
    + intros (pre & suf & E & H).
      destruct pre; [|discriminate]. destruct suf; [|discriminate].
      exact H.
  - rewrite orb_true_iff, IH. split.
    + intros [H|(pre & suf & -> & H)].
      * exists EmptyString, (String x s). auto.
      * exists (String x pre), suf. auto.
    + intros (pre & suf & E & H). destruct pre as [|y pre].
      * left. change (String x s = suf) in E. subst suf. exact H.
      * rewrite app_cons in E. injection E as <- ->.
        right. exists pre, suf. auto.
Qed.

(** [cs{n}] reads exactly [n] characters of the set. *)
Lemma match_repeat_iff (n : nat) (cs : charset) (k : cont) :
  forall prev s,
    match_repeat n cs k prev s = true
    <-> exists t s',
          s = t +:+ s' /\ String.length t = n
          /\ Str.all (mem cs) t = true
          /\ k (last_char prev t) s' = true.
Proof.
  induction n as [|n IH]; intros prev s; simpl.
  - split.
    + intros H. exists EmptyString, s. auto.
    + intros (t & s' & -> & Hl & _ & H). destruct t; [exact H|discriminate].
  - destruct s as [|x s].
    + split; [discriminate|].
      intros (t & s' & E & Hl & _). destruct t; discriminate.
    + rewrite andb_true_iff, IH. split.
      * intros (Hx & t & s' & -> & Hl & Ha & H).
        exists (String x t), s'. simpl. rewrite Hx, Ha, Hl. auto.
      * intros (t & s' & E & Hl & Ha & H). destruct t as [|y t]; [discriminate|].
        rewrite app_cons in E. injection E as <- ->.
        simpl in Ha, Hl, H. apply andb_true_iff in Ha as [Hx Ha].
        split; [exact Hx|]. exists t, s'. auto.
Qed.

Lemma all_digits_edges (mid : string) :
  mid <> EmptyString -> Str.all Str.is_digit mid = true ->
  (forall post, word_here (mid +:+ post) = true)
  /\ (forall prev, word_before (last_char prev mid) = true).
Proof.
  intros Hne Hall. split.
  - intros post. destruct mid as [|c mid]; [congruence|].
    simpl in Hall. apply andb_true_iff in Hall as [Hc _].
    rewrite app_cons. simpl. apply digit_is_word, Hc.
  - destruct mid as [|c mid]; [congruence|]. clear Hne.
    revert c Hall. induction mid as [|d mid IH]; intros c Hall prev.
    + simpl in *. apply andb_true_iff in Hall as [Hc _].
      apply digit_is_word, Hc.
    + simpl in Hall. apply andb_true_iff in Hall as [_ Hall].
      simpl. apply (IH d Hall (Some c)).
Qed.

(** The pattern [\b\d{n}\b], for [n > 0], finds exactly the whole tokens
    of [n] digits. *)
Lemma digit_token_search (n : nat) (s : string) :
  0 < n ->
  search (cat [Boundary; Repeat n Digit] Boundary) s = true
  <-> digit_token n s.
Proof.
  intros Hn. unfold search, digit_token. rewrite search_from_iff.
  split.
  - intros (pre & suf & -> & H). simpl in H.
    apply andb_true_iff in H as [Hb H].
    apply match_repeat_iff in H as (mid & post & -> & Hl & Ha & H).
    apply andb_true_iff in H as [He _].
    assert (Hne : mid <> EmptyString) by (destruct mid; simpl in Hl; [lia|discriminate]).
    destruct (all_digits_edges mid Hne Ha) as [Hh Hl'].
    unfold at_boundary in Hb, He. rewrite Hh in Hb. rewrite Hl' in He.
    exists pre, mid, post. repeat split; try assumption.
    + destruct (word_before (last_char None pre)); [discriminate|reflexivity].
    + destruct (word_here post); [discriminate|reflexivity].
  - intros (pre & mid & post & -> & Hl & Ha & Hb & He).
    exists pre, (mid +:+ post). split; [reflexivity|]. simpl.
    assert (Hne : mid <> EmptyString) by (destruct mid; simpl in Hl; [lia|discriminate]).
    destruct (all_digits_edges mid Hne Ha) as [Hh Hl'].
    unfold at_boundary at 1. rewrite Hh, Hb. simpl.
    apply match_repeat_iff. exists mid, post.
    repeat split; try assumption.
    unfold at_boundary. rewrite Hl', He. reflexivity.
Qed.

End DigitPatterns.

(** The phone and Aadhaar patterns (lines 10-11, tested at lines 26 and
    29): a value is matched exactly when it holds ten, respectively twelve,
    consecutive digits with no word character right before or right after
    them. *)
Theorem phone_aadhar_patterns_find_tokens (s : string) :
  (search phone_pattern s = true <-> digit_token 10 s)
  /\ (search aadhar_pattern s = true <-> digit_token 12 s).
Proof.
  split; apply digit_token_search; lia.
Qed.

(** ** A mask is not matched again *)

Section Rematch.

Lemma count_if_le_length (p : ascii -> bool) (s : string) :
  count_if p s <= String.length s.
Proof.
  induction s as [|x s IH]; simpl; [lia|]. destruct (p x); lia.
Qed.

Lemma count_if_all (p : ascii -> bool) (s : string) :
  Str.all p s = true -> count_if p s = String.length s.
Proof.
  induction s as [|x s IH]; simpl; [reflexivity|].
  intros H. apply andb_true_iff in H as [-> H]. rewrite (IH H). reflexivity.
Qed.

Lemma length_drop (n : nat) (s : string) :
  String.length (Str.drop n s) = String.length s - n.
Proof.
  revert n. induction s as [|x s IH]; intros [|n]; simpl; try reflexivity.
  apply IH.
Qed.

Lemma length_last_n (n : nat) (s : string) :
  String.length (Str.last_n n s) = Nat.min n (String.length s).
Proof. unfold Str.last_n. rewrite length_drop. lia. Qed.

Lemma digit_token_count (n : nat) (s : string) :
  digit_token n s -> n <= count_if Str.is_digit s.
Proof.
  intros (pre & mid & post & -> & Hl & Ha & _).
  rewrite !count_if_app, (count_if_all _ _ Ha). lia.
Qed.

Lemma passport_match_count (s : string) :
  search passport_pattern s = true -> 7 <= count_if Str.is_digit s.
Proof.
  unfold search. rewrite search_from_iff.
  intros (pre & suf & -> & H).
  unfold passport_pattern in H. cbn [cat rmatch] in H.
  apply andb_true_iff in H as [_ H].
  apply match_repeat_iff in H as (t1 & s1 & -> & _ & _ & H).
  apply match_repeat_iff in H as (t2 & s2 & -> & Hl & Ha & _).
  change (mem Digit) with Str.is_digit in Ha.
  rewrite !count_if_app, (count_if_all _ _ Ha). lia.
Qed.

Lemma not_true_false (b : bool) : (b = true -> False) -> b = false.
Proof. destruct b; [intros H; destruct H; reflexivity|reflexivity]. Qed.

Lemma phone_mask_unmatched (s : string) :
  search phone_pattern (redact_phone s) = false.
Proof.
  apply not_true_false. intros H.
  apply digit_token_search, digit_token_count in H; [|lia].
  unfold redact_phone in H. rewrite !count_if_app in H.
  pose proof (count_if_le_length Str.is_digit (Str.take 2 s)) as H1.
  pose proof (count_if_le_length Str.is_digit (Str.last_n 2 s)) as H2.
  rewrite length_take in H1. rewrite length_last_n in H2.
  change (count_if Str.is_digit "XXXXXX") with 0 in H. lia.
Qed.

Lemma aadhar_mask_unmatched (s : string) :
  search aadhar_pattern (redact_aadhar s) = false.
Proof.
  apply not_true_false. intros H.
  apply digit_token_search, digit_token_count in H; [|lia].
  unfold redact_aadhar in H. rewrite !count_if_app in H.
  pose proof (count_if_le_length Str.is_digit (Str.take 4 s)) as H1.
  pose proof (count_if_le_length Str.is_digit (Str.last_n 4 s)) as H2.
  rewrite length_take in H1. rewrite length_last_n in H2.
  change (count_if Str.is_digit "XXXX") with 0 in H. lia.
Qed.

Lemma passport_mask_unmatched (s m : string) :
  redact_passport s = Ok m -> search passport_pattern m = false.
Proof.
  intros Hm. apply not_true_false. intros H.
  apply passport_match_count in H.
  destruct s as [|c s]; [discriminate|]. simpl in Hm.
  injection Hm as <-.
  change (count_if Str.is_digit (String c "" +:+ "XXXXXXX"))
    with ((if Str.is_digit c then 1 else 0) + 0) in H.
  destruct (Str.is_digit c); lia.
Qed.

End Rematch.

(** The masks of [redact_phone], [redact_aadhar] and [redact_passport]
    (lines 62-69) are never matched by the pattern of their own rule (lines
    10-12): whatever the value, the mask keeps at most four, eight and one
    of its characters, fewer than the digits the pattern asks for. *)
Theorem digit_masks_not_rematched (s : string) :
  search phone_pattern (redact_phone s) = false
  /\ search aadhar_pattern (redact_aadhar s) = false
  /\ forall m, redact_passport s = Ok m -> search passport_pattern m = false.
Proof.
  split; [apply phone_mask_unmatched|].
  split; [apply aadhar_mask_unmatched|].
  intros m. apply passport_mask_unmatched.
Qed.

(** ** What [detect_pii] changes and what it leaves *)

Section Passes.

Lemma not_flagged_unchanged (d : dict) :
  wf_record d ->
  standalone_fired d = false -> combinatorial d = false ->
  run_detect_pii d = Ok (false, d).
Proof.
  intros Hwf Hf Hc. rewrite (run_detect_pii_cases d Hwf).
  unfold raises, redacted. rewrite Hf, Hc. simpl. do 2 f_equal.
  apply map_values_id. intros k v Hin.
  apply not_fires_unmasked. eapply not_fired_entry; eassumption.
Qed.

Lemma is_str_standalone_masked (k : string) (v : value) :
  is_str (standalone_masked k v) = is_str v.
Proof.
  unfold standalone_masked. destruct v as [s| |]; try reflexivity.
  destruct (standalone_rule k s); [|reflexivity].
  destruct (call_redactor r s); reflexivity.
Qed.

Lemma is_str_quasi_masked (k : string) (v : value) :
  is_str (quasi_masked k v) = is_str v.
Proof.
  unfold quasi_masked. destruct v as [s| |]; try reflexivity.
  destruct (in_fields k combinatorial_pii_fields); [|reflexivity].
  destruct (quasi_mask k s); reflexivity.
Qed.

Lemma fires_not_counts (k : string) (v : value) :
  fires k v = true -> counts k v = false.
Proof.
  unfold fires, counts. destruct v as [s| |]; try discriminate.
  destruct (standalone_rule k s) as [f|] eqn:E; [|discriminate]. intros _.
  destruct (in_fields k combinatorial_pii_fields) eqn:Hf; [|reflexivity].
  rewrite (quasi_key_no_rule k s Hf) in E. discriminate.
Qed.

End Passes.

(** [detect_pii] (lines 17-60) returns [isPII = False] with the record as
    it was exactly when no standalone rule fires and fewer than two
    combinatorial fields with string values are present; and whenever it
    returns [False], the record it returns is the input, entry for entry. *)
Theorem not_flagged_iff_unchanged (d : dict) :
  wf_record d ->
  (run_detect_pii d = Ok (false, d)
   <-> standalone_fired d = false /\ quasi_count d < 2)
  /\ (forall r, run_detect_pii d = Ok (false, r) -> r = d).
Proof.
  intros Hwf.
  assert (Hinv : forall r, run_detect_pii d = Ok (false, r) ->
                   standalone_fired d = false /\ combinatorial d = false).
  { intros r H. destruct (returns_inv d false r Hwf H) as (_ & Hflag & _).
    symmetry in Hflag. apply orb_false_iff in Hflag. exact Hflag. }
  split; [split|].
  - intros H. destruct (Hinv d H) as [Hf Hc]. split; [exact Hf|].
    unfold combinatorial in Hc. apply Nat.leb_gt in Hc. exact Hc.
  - intros [Hf Hq]. apply not_flagged_unchanged; try assumption.
    unfold combinatorial. apply Nat.leb_gt. exact Hq.
  - intros r H. destruct (Hinv r H) as [Hf Hc].
    rewrite (not_flagged_unchanged d Hwf Hf Hc) in H. congruence.
Qed.

Lemma not_flagged_iff_unchanged_witness :
  run_detect_pii [("phone", VStr "12345"); ("name", VStr "John")]
  = Ok (false, [("phone", VStr "12345"); ("name", VStr "John")]).
Proof.
  destruct (not_flagged_iff_unchanged
              [("phone", VStr "12345"); ("name", VStr "John")])
    as [[_ H] _].
  - apply wf_record_decide. reflexivity.
  - apply H. split; [reflexivity|]. vm_compute. lia.
Defined.

(** The rule tables of the two loops (lines 15, 26-35) share no key, so
    the second loop never overwrites what the first wrote: in the returned
    record a field on which a standalone rule fired holds the mask of that
    rule, whether or not the combinatorial masking ran, and the record is
    flagged. *)
Theorem standalone_mask_is_final (d : dict) (flag : bool) (r : dict)
    (k s : string) (f : redactor) :
  wf_record d ->
  run_detect_pii d = Ok (flag, r) ->
  Dict.get k d = Some (VStr s) ->
  standalone_rule k s = Some f ->
  flag = true
  /\ exists m, call_redactor f s = Ok m /\ Dict.get k r = Some (VStr m).
Proof.
  intros Hwf Hrun Hget Hrule.
  destruct (returns_inv d flag r Hwf Hrun) as (_ & -> & ->).
  assert (Hf : fires k (VStr s) = true).
  { unfold fires. rewrite Hrule. reflexivity. }
  split.
  - rewrite (fired_entry d k (VStr s) (get_Some_in _ _ _ Hget) Hf).
    reflexivity.
  - destruct (rule_call_ok k s f Hrule) as [m Hm]. exists m.
    split; [exact Hm|]. rewrite get_redacted, Hget. cbn [option_map].
    assert (Hsm : standalone_masked k (VStr s) = VStr m).
    { unfold standalone_masked. rewrite Hrule, Hm. reflexivity. }
    rewrite Hsm. destruct (combinatorial d); [|reflexivity].
    pose proof (fires_not_counts _ _ Hf) as Hc.
    rewrite <- counts_standalone_masked, Hsm in Hc.
    destruct (not_counts_untouched _ _ Hc) as [-> _]. reflexivity.
Qed.

Lemma standalone_mask_is_final_witness :
  Dict.get "aadhar"
    [("aadhar", VStr "1234XXXX9012"); ("name", VStr "JXXX DXXX");
     ("email", VStr "joXXX@x.com")]
  = Some (VStr "1234XXXX9012").
Proof.
  destruct (standalone_mask_is_final
              [("aadhar", VStr "123456789012"); ("name", VStr "John Doe");
               ("email", VStr "john@x.com")]
              true
              [("aadhar", VStr "1234XXXX9012"); ("name", VStr "JXXX DXXX");
               ("email", VStr "joXXX@x.com")]
              "aadhar" "123456789012" RedactAadhar)
    as (_ & m & Hm & Hget).
  - apply wf_record_decide. reflexivity.
  - reflexivity.
  - reflexivity.
  - reflexivity.
  - injection Hm as <-. exact Hget.
Defined.

(** Redaction keeps the type of every value (lines 24-57): a field that
    holds a string in the input holds a string in the returned record, and
    a field that holds a number or null is returned as it is, whatever its
    key. *)
Theorem values_keep_their_type (d : dict) (flag : bool) (r : dict) :
  wf_record d ->
  run_detect_pii d = Ok (flag, r) ->
  forall k v,
    Dict.get k d = Some v ->
    exists v',
      Dict.get k r = Some v'
      /\ is_str v' = is_str v
      /\ (is_str v = false -> v' = v).
Proof.
  intros Hwf Hrun k v Hget.
  destruct (returns_inv d flag r Hwf Hrun) as (_ & _ & ->).
  rewrite get_redacted, Hget. cbn [option_map].
  eexists. split; [reflexivity|].
  split.
  - destruct (combinatorial d);
      rewrite ?is_str_quasi_masked, is_str_standalone_masked; reflexivity.
  - intros Hs. destruct v as [s| |]; [discriminate| |];
      destruct (combinatorial d); reflexivity.
Qed.

Lemma values_keep_their_type_witness :
  exists v',
    Dict.get "name" [("name", VNum 7); ("email", VStr "aXXX@b.c");
                     ("address", VStr "[REDACTED_ADDRESS]")] = Some v'
    /\ is_str v' = is_str (VNum 7)
    /\ (is_str (VNum 7) = false -> v' = VNum 7).
Proof.
  refine (values_keep_their_type
            [("name", VNum 7); ("email", VStr "a@b.c");
             ("address", VStr "12 High Street")]
            true
            [("name", VNum 7); ("email", VStr "aXXX@b.c");
             ("address", VStr "[REDACTED_ADDRESS]")]
            _ _ "name" (VNum 7) _).
  - apply wf_record_decide. reflexivity.
  - reflexivity.
  - reflexivity.
Defined.

(** ** Fields outside the rule tables, and more fields *)

Section Extension.

Lemma not_rule_key (k s : string) :
  in_fields k standalone_fields = false -> standalone_rule k s = None.
Proof.
  unfold in_fields, standalone_fields. simpl.
  rewrite !orb_false_iff. intros (H1 & H2 & H3 & H4 & _).
  unfold standalone_rule. rewrite H1, H2, H3, H4. reflexivity.
Qed.

Lemma unknown_entry (k : string) (v : value) :
  in_fields k standalone_fields = false ->
  in_fields k combinatorial_pii_fields = false ->
  fires k v = false /\ counts k v = false /\ undersized k v = false
  /\ standalone_masked k v = v /\ quasi_masked k v = v.
Proof.
  intros Hs Hq.
  assert (Hf : fires k v = false).
  { unfold fires. destruct v as [s| |]; try reflexivity.
    rewrite (not_rule_key k s Hs). reflexivity. }
  assert (Hc : counts k v = false).
  { unfold counts. rewrite Hq. apply andb_false_r. }
  destruct (not_counts_untouched k v Hc) as [Hqm Hmd].
  rewrite mask_defined_undersized in Hmd. apply negb_true_iff in Hmd.
  repeat split; try assumption. apply not_fires_unmasked, Hf.
Qed.

Lemma quasi_count_app (d1 d2 : dict) :
  quasi_count (d1 ++ d2) = quasi_count d1 + quasi_count d2.
Proof. unfold quasi_count. rewrite List.filter_app, length_app. reflexivity. Qed.

Lemma map_values_app (f : string -> value -> value) (d1 d2 : dict) :
  map_values f (d1 ++ d2) = map_values f d1 ++ map_values f d2.
Proof. apply map_app. Qed.

End Extension.

(** A field whose key is in neither rule table (lines 15, 26-35) is not
    looked at: added to a record, it changes neither the exception nor the
    flag, every other field is redacted as without it, and the field
    itself is returned as it came. *)
Theorem unknown_field_ignored (d : dict) (k : string) (v : value) :
  wf_record (d ++ [(k, v)]) ->
  in_fields k standalone_fields = false ->
  in_fields k combinatorial_pii_fields = false ->
  run_detect_pii (d ++ [(k, v)])
  = match run_detect_pii d with
    | Ok (flag, r) => Ok (flag, r ++ [(k, v)])
    | Raise e => Raise e
    end.
Proof.
  intros Hwf Hs Hq.
  assert (Hwfd : wf_record d).
  { unfold wf_record in *. rewrite keys_app in Hwf.
    apply NoDup_app in Hwf as [H _]. exact H. }
  destruct (unknown_entry k v Hs Hq) as (Hf & Hc & Hu & Hsm & Hqm).
  assert (Hcount : quasi_count (d ++ [(k, v)]) = quasi_count d).
  { rewrite quasi_count_app. unfold quasi_count at 2. simpl.
    change (on_entry counts (k, v)) with (counts k v). rewrite Hc. simpl. lia. }
  assert (Hcomb : combinatorial (d ++ [(k, v)]) = combinatorial d).
  { unfold combinatorial. rewrite Hcount. reflexivity. }
  assert (Hfired : standalone_fired (d ++ [(k, v)]) = standalone_fired d).
  { unfold standalone_fired. rewrite existsb_app. simpl.
    change (on_entry fires (k, v)) with (fires k v).
    rewrite Hf, !orb_false_r. reflexivity. }
  assert (Hraises : raises (d ++ [(k, v)]) = raises d).
  { unfold raises. rewrite Hcomb, existsb_app. simpl.
    change (on_entry undersized (k, v)) with (undersized k v).
    rewrite Hu, !orb_false_r. reflexivity. }
  assert (Hred : redacted (d ++ [(k, v)]) = redacted d ++ [(k, v)]).
  { unfold redacted. rewrite Hcomb.
    destruct (combinatorial d); rewrite !map_values_app; f_equal;
      unfold map_values; simpl; unfold on_entry; simpl;
      rewrite ?Hsm, ?Hqm; reflexivity. }
  rewrite (run_detect_pii_cases _ Hwf), (run_detect_pii_cases _ Hwfd).
  rewrite Hraises, Hfired, Hcomb, Hred.
  destruct (raises d); reflexivity.
Qed.

Lemma unknown_field_ignored_witness :
  run_detect_pii [("phone", VStr "9876543210"); ("city", VStr "Pune")]
  = Ok (true, [("phone", VStr "98XXXXXX10"); ("city", VStr "Pune")]).
Proof.
  apply (unknown_field_ignored [("phone", VStr "9876543210")] "city"
           (VStr "Pune")).
  - apply wf_record_decide. reflexivity.
  - reflexivity.
  - reflexivity.
Defined.

(** The flag is monotone in the record (lines 23-44, 59): when
    [detect_pii] flags a record, then on every record obtained by adding a
    field it returns the flag [True] again, unless it raises [IndexError]
    on the larger record. *)
Theorem flag_monotone (d : dict) (k : string) (v : value) (r : dict) :
  wf_record (d ++ [(k, v)]) ->
  run_detect_pii d = Ok (true, r) ->
  match run_detect_pii (d ++ [(k, v)]) with
  | Ok (flag', _) => flag' = true
  | Raise e => e = IndexError
  end.
Proof.
  intros Hwf H.
  assert (Hwfd : wf_record d).
  { unfold wf_record in *. rewrite keys_app in Hwf.
    apply NoDup_app in Hwf as [Hd _]. exact Hd. }
  destruct (returns_inv _ _ _ Hwfd H) as (_ & Hflag & _).
  rewrite (run_detect_pii_cases _ Hwf).
  destruct (raises (d ++ [(k, v)])); [reflexivity|].
  symmetry in Hflag. apply orb_true_iff in Hflag as [Hf|Hc].
  - unfold standalone_fired in *. rewrite existsb_app, Hf. reflexivity.
  - unfold combinatorial in *. rewrite quasi_count_app.
    apply Nat.leb_le in Hc.
    replace (2 <=? quasi_count d + quasi_count [(k, v)])%nat with true.
    + apply orb_true_r.
    + symmetry. apply Nat.leb_le. lia.
Qed.

Lemma flag_monotone_witness :
  match run_detect_pii [("phone", VStr "9876543210"); ("name", VStr "John")]
  with
  | Ok (flag', _) => flag' = true
  | Raise e => e = IndexError
  end.
Proof.
  apply (flag_monotone [("phone", VStr "9876543210")] "name" (VStr "John")
           [("phone", VStr "98XXXXXX10")]).
  - apply wf_record_decide. reflexivity.
  - reflexivity.
Defined.

(** When the combinatorial masking runs (lines 46-57), [address],
    [device_id] and [ip_address] leave no trace of their values: whatever
    string they held, the returned record holds the fixed markers. *)
Theorem opaque_markers (d : dict) (flag : bool) (r : dict) :
  wf_record d ->
  run_detect_pii d = Ok (flag, r) ->
  2 <= quasi_count d ->
  (forall s, Dict.get "address" d = Some (VStr s) ->
             Dict.get "address" r = Some (VStr "[REDACTED_ADDRESS]"))
  /\ (forall s, Dict.get "device_id" d = Some (VStr s) ->
                Dict.get "device_id" r = Some (VStr "[REDACTED_DEVICE_ID]"))
  /\ (forall s, Dict.get "ip_address" d = Some (VStr s) ->
                Dict.get "ip_address" r = Some (VStr "[REDACTED_IP]")).
Proof.
  intros Hwf Hrun Hq.
  destruct (returns_inv d flag r Hwf Hrun) as (_ & _ & ->).
  assert (Hc : combinatorial d = true).
  { unfold combinatorial. apply Nat.leb_le, Hq. }
  repeat split; intros s Hget; rewrite get_redacted, Hget, Hc; reflexivity.
Qed.

Lemma opaque_markers_witness :
  Dict.get "ip_address"
    [("ip_address", VStr "[REDACTED_IP]");
     ("device_id", VStr "[REDACTED_DEVICE_ID]")]
  = Some (VStr "[REDACTED_IP]").
Proof.
  destruct (opaque_markers
              [("ip_address", VStr "10.0.0.7"); ("device_id", VStr "D-42")]
              true
              [("ip_address", VStr "[REDACTED_IP]");
               ("device_id", VStr "[REDACTED_DEVICE_ID]")])
    as (_ & _ & Hip).
  - apply wf_record_decide. reflexivity.
  - reflexivity.
  - vm_compute. lia.
  - apply (Hip "10.0.0.7"). reflexivity.
Defined.

(** ** A second pass over a redacted record *)

Section SecondPass.

Lemma rule_fired_cases (k s : string) (f : redactor) :
  standalone_rule k s = Some f ->
  (k = "phone" /\ f = RedactPhone)
  \/ (k = "aadhar" /\ f = RedactAadhar)
  \/ (k = "passport" /\ f = RedactPassport)
  \/ (k = "upi_id" /\ f = RedactUpi).
Proof.
  unfold standalone_rule.
  destruct (String.eqb k "phone" && search phone_pattern s) eqn:E1.
  { apply andb_true_iff in E1 as [E1 _]. apply String.eqb_eq in E1.
    intros [= <-]. auto. }
  destruct (String.eqb k "aadhar" && search aadhar_pattern s) eqn:E2.
  { apply andb_true_iff in E2 as [E2 _]. apply String.eqb_eq in E2.
    intros [= <-]. auto. }
  destruct (String.eqb k "passport" && search passport_pattern s) eqn:E3.
  { apply andb_true_iff in E3 as [E3 _]. apply String.eqb_eq in E3.
    intros [= <-]. auto. }
  destruct (String.eqb k "upi_id" && search upi_pattern s) eqn:E4.
  { apply andb_true_iff in E4 as [E4 _]. apply String.eqb_eq in E4.
    intros [= <-]. auto 6. }
  discriminate.
Qed.

(** No rule but the UPI rule fires on what the first loop has written. *)
Lemma masked_not_fired (k : string) (v : value) :
  k <> "upi_id" -> fires k (standalone_masked k v) = false.
Proof.
  intros Hk. unfold standalone_masked.
  destruct v as [s| |]; try reflexivity.
  destruct (standalone_rule k s) as [f|] eqn:E.
  - destruct (rule_call_ok k s f E) as [m Hm]. rewrite Hm.
    pose proof (phone_mask_unmatched s) as Hp.
    pose proof (aadhar_mask_unmatched s) as Ha.
    pose proof (passport_mask_unmatched s) as Hs.
    destruct (rule_fired_cases k s f E)
      as [[-> ->]|[[-> ->]|[[-> ->]|[-> _]]]]; [| | |congruence];
      simpl in Hm; unfold fires, standalone_rule.
    + injection Hm as <-. rewrite Hp. reflexivity.
    + injection Hm as <-. rewrite Ha. reflexivity.
    + rewrite (Hs m Hm). simpl.
      destruct (search phone_pattern m), (search aadhar_pattern m);
        reflexivity.
  - unfold fires. rewrite E. reflexivity.
Qed.

Lemma quasi_count_after_scan (d : dict) :
  quasi_count (map_values standalone_masked d) = quasi_count d.
Proof.
  unfold quasi_count.
  rewrite <- (length_map fst (List.filter _ (map_values _ d))).
  rewrite <- (length_map fst (List.filter _ d)).
  f_equal. apply fields_after_scan.
Qed.

End SecondPass.

(** Running [detect_pii] on its own output (lines 10-12, 17-60): for a
    record without [upi_id] and with fewer than two combinatorial fields,
    the record returned by a first call, flagged or not, is returned
    unchanged and with [isPII = False] by a second call. The masks are
    stable; the classification is not. *)
Theorem second_pass_unflags (d : dict) (flag : bool) (r : dict) :
  wf_record d ->
  Dict.has "upi_id" d = false ->
  quasi_count d < 2 ->
  run_detect_pii d = Ok (flag, r) ->
  run_detect_pii r = Ok (false, r).
Proof.
  intros Hwf Hupi Hq Hrun.
  destruct (returns_inv d flag r Hwf Hrun) as (_ & _ & ->).
  assert (Hc : combinatorial d = false).
  { unfold combinatorial. apply Nat.leb_gt, Hq. }
  unfold redacted. rewrite Hc.
  apply not_flagged_unchanged.
  - unfold wf_record. rewrite keys_map_values. exact Hwf.
  - unfold standalone_fired, map_values.
    apply not_true_false. intros H.
    apply existsb_exists in H as ([k v'] & Hin & Hf).
    apply in_map_iff in Hin as ([k0 v] & [= <- <-] & Hin).
    change (fires k0 (standalone_masked k0 v) = true) in Hf.
    rewrite masked_not_fired in Hf; [discriminate|].
    intros ->. apply (has_false_notin _ _ Hupi).
    apply (entry_key_in _ v). apply list_elem_of_In, Hin.
  - unfold combinatorial. rewrite quasi_count_after_scan.
    apply Nat.leb_gt, Hq.
Qed.

Lemma second_pass_unflags_witness :
  run_detect_pii [("phone", VStr "98XXXXXX10"); ("name", VStr "John")]
  = Ok (false, [("phone", VStr "98XXXXXX10"); ("name", VStr "John")]).
Proof.
  apply (second_pass_unflags
           [("phone", VStr "9876543210"); ("name", VStr "John")] true).
  - apply wf_record_decide. reflexivity.
  - reflexivity.
  - vm_compute. lia.
  - reflexivity.
Defined.

(** The slices of [redact_phone] and [redact_aadhar] (lines 62-66) clamp
    to the value: the masks have [6 + 2 * min(2, n)] and
    [4 + 2 * min(4, n)] characters for a value of [n] characters, so a
    ten-character phone and a twelve-character Aadhaar number keep their
    length, and a shorter value is repeated on both sides of the [X]s. *)
Theorem digit_mask_lengths (s : string) :
  String.length (redact_phone s) = 6 + 2 * Nat.min 2 (String.length s)
  /\ String.length (redact_aadhar s) = 4 + 2 * Nat.min 4 (String.length s)
  /\ (String.length s <= 2 -> redact_phone s = s +:+ "XXXXXX" +:+ s).
Proof.
  unfold redact_phone, redact_aadhar.
  rewrite !length_app_str, !length_take, !length_last_n. simpl String.length.
  split; [lia|]. split; [lia|].
  intros Hl. destruct s as [|a [|b [|c s]]]; try reflexivity.
  simpl in Hl. lia.
Qed.

(** ** [process_csv]: a row on which [detect_pii] raises *)

(** Lines 95-102: the bare [except] turns the [IndexError] of [detect_pii]
    into an unredacted row. A row whose record has two combinatorial
    fields, one of them an empty [name] or an [email] without [@], is
    written out exactly as it was read, with [is_pii = False], whatever
    else the record holds; every other row is written redacted with the
    flag of [detect_pii]. *)
Theorem row_result_cases (json_dumps : dict -> string) (cell : string)
    (d : dict) :
  wf_record d ->
  row_result json_dumps cell d
  = if raises d then (cell, false)
    else (json_dumps (redacted d), standalone_fired d || combinatorial d).
Proof.
  intros Hwf. unfold row_result. rewrite (run_detect_pii_cases d Hwf).
  destruct (raises d); reflexivity.
Qed.

Lemma row_result_cases_witness :
  row_result (fun _ => "redacted")
    "{'phone': '9876543210', 'name': '', 'email': 'a@b.c'}"
    [("phone", VStr "9876543210"); ("name", VStr ""); ("email", VStr "a@b.c")]
  = ("{'phone': '9876543210', 'name': '', 'email': 'a@b.c'}", false).
Proof.
  apply (row_result_cases (fun _ => "redacted")
           "{'phone': '9876543210', 'name': '', 'email': 'a@b.c'}"
           [("phone", VStr "9876543210"); ("name", VStr "");
            ("email", VStr "a@b.c")]).
  apply wf_record_decide. reflexivity.
Defined.

(** ** The passport and UPI patterns *)

Section OtherPatterns.

Lemma upper_is_word (c : ascii) :
  Str.is_upper_az c = true -> Str.is_word c = true.
Proof.
  unfold Str.is_upper_az, Str.is_word. intros ->.
  rewrite orb_true_r. reflexivity.
Qed.

Lemma repeat_one_iff (cs : charset) (k : cont) (prev : option ascii)
    (s : string) :
  match_repeat 1 cs k prev s = true
  <-> exists c s', s = String c s' /\ mem cs c = true /\ k (Some c) s' = true.
Proof.
  simpl. destruct s as [|c s].
  - split; [discriminate|]. intros (c & s' & E & _). discriminate.
  - rewrite andb_true_iff. split.
    + intros [Hc Hk]. exists c, s. auto.
    + intros (c' & s' & [= <- <-] & Hc & Hk). auto.
Qed.


Lemma upi_match_cases (s : string) :
  search upi_pattern s = true ->
  Str.contains "." s = true \/ ten_digits_at s.
Proof.
  unfold search. rewrite search_from_iff.
  intros (pre & suf & -> & H).
  unfold upi_pattern in H. cbn [rmatch] in H.
  apply orb_true_iff in H as [H|H].
  - left. destruct (rmatch_inv "." _ _ _ _ H) as (t & p & s' & -> & _ & Ht).
    rewrite !contains_app, (Ht eq_refl). rewrite orb_true_r. reflexivity.
  - right. cbn [cat rmatch] in H. apply andb_true_iff in H as [_ H].
    apply match_repeat_iff in H as (mid & rest & -> & Hl & Ha & H).
    destruct rest as [|c rest]; [discriminate|].
    apply andb_true_iff in H as [Hc _]. simpl in Hc.
    apply Ascii.eqb_eq in Hc. subst c.
    exists pre, mid, rest. auto.
Qed.

End OtherPatterns.

(** The passport pattern (line 12, tested at line 32) matches a value
    exactly when it holds one letter of [A-Z] followed by seven digits,
    with no word character right before or right after these eight. *)
Theorem passport_pattern_finds_tokens (s : string) :
  search passport_pattern s = true <-> passport_token s.
Proof.
  unfold search, passport_token. rewrite search_from_iff. split.
  - intros (pre & suf & -> & H).
    unfold passport_pattern in H. cbn [cat rmatch] in H.
    apply andb_true_iff in H as [Hb H].
    apply repeat_one_iff in H as (c & rest & -> & Hc & H).
    apply match_repeat_iff in H as (mid & post & -> & Hl & Ha & H).
    apply andb_true_iff in H as [He _].
    change (mem UpperAZ c) with (Str.is_upper_az c) in Hc.
    change (mem Digit) with Str.is_digit in Ha.
    assert (Hne : mid <> EmptyString)
      by (destruct mid; simpl in Hl; [lia|discriminate]).
    destruct (all_digits_edges mid Hne Ha) as [_ Hl'].
    unfold at_boundary in Hb, He. simpl in Hb.
    rewrite (upper_is_word c Hc) in Hb. rewrite Hl' in He.
    exists pre, c, mid, post. repeat split; try assumption.
    + destruct (word_before (last_char None pre)); [discriminate|reflexivity].
    + destruct (word_here post); [discriminate|reflexivity].
  - intros (pre & c & mid & post & -> & Hc & Hl & Ha & Hb & He).
    exists pre, (String c mid +:+ post). split; [reflexivity|].
    unfold passport_pattern. cbn [cat rmatch].
    assert (Hne : mid <> EmptyString)
      by (destruct mid; simpl in Hl; [lia|discriminate]).
    destruct (all_digits_edges mid Hne Ha) as [_ Hl'].
    apply andb_true_iff. split.
    + unfold at_boundary. rewrite Hb, app_cons. simpl.
      apply upper_is_word, Hc.
    + rewrite app_cons. apply repeat_one_iff. exists c, (mid +:+ post).
      split; [reflexivity|]. split; [exact Hc|].
      apply match_repeat_iff. exists mid, post.
      repeat split; try assumption.
      unfold at_boundary. rewrite Hl', He. reflexivity.
Qed.

(** The UPI pattern (line 13, tested at line 35) matches no value that
    has neither a dot nor ten digits: a handle such as [name@bank] is
    never flagged by the UPI rule. *)
Theorem upi_pattern_needs_dot_or_digits (s : string) :
  Str.contains "." s = false ->
  count_if Str.is_digit s < 10 ->
  search upi_pattern s = false.
Proof.
  intros Hdot Hdig. apply not_true_false. intros H.
  destruct (upi_match_cases s H) as [Hd|(pre & mid & post & -> & Hl & Ha)].
  - congruence.
  - rewrite !count_if_app, (count_if_all _ _ Ha) in Hdig. lia.
Qed.

Lemma upi_pattern_needs_dot_or_digits_witness :
  search upi_pattern "user42@okhdfcbank" = false.
Proof.
  apply (upi_pattern_needs_dot_or_digits "user42@okhdfcbank").
  - reflexivity.
  - vm_compute. lia.
Defined.

(** The mask of a name (lines 77-81) shows at most two characters of it:
    it is one character followed by ["XXX"], or two such groups separated
    by a space, whatever the length of the name and the number of its
    words. *)
Theorem name_mask_shape (s m : string) :
  redact_name s = Ok m ->
  (exists c, m = String c "XXX")
  \/ (exists c1 c2, m = String c1 ("XXX " +:+ String c2 "XXX")).
Proof.
  intros H. destruct (redact_name_shape s m H)
    as [(c1 & c2 & _ & _ & ->)|(c & ->)]; eauto.
Qed.

Lemma name_mask_shape_witness :
  (exists c, "JXXX DXXX" = String c "XXX")
  \/ (exists c1 c2, "JXXX DXXX" = String c1 ("XXX " +:+ String c2 "XXX")).
Proof. apply (name_mask_shape "John Ronald Doe" "JXXX DXXX"). reflexivity. Defined.
